(** * Environment-variable resolution of the Netlify CLI (utils/env)

    A shallow embedding of the env-var resolution engine:
    [findValueFromContext], [filterEnvBySource], [fetchEnvelopeItems],
    [formatEnvelopeData], [getEnvelopeEnv], [translateFromMongoToEnvelope]
    and [translateFromEnvelopeToMongo].

    Modelling choices.
    - JS strings are [string]s of 8-bit characters; [toLowerCase] folds the
      ASCII letters and the relational operator [<] on strings is the
      lexicographic order on character codes ([String.ltb]). These are the
      operations of JS on ASCII strings ([isAscii]), and the statements on
      the order of keys take that as a hypothesis.
    - The context, scope and source tags are the closed enumerations that the
      JSDoc annotations of the source give.
    - A JS object used as a dictionary is an association list in the order
      in which its keys were created ([Obj]); writing an existing key keeps
      its position, writing a new key appends. [ownPropertyKeys] is the
      order in which JS enumerates the keys: array-index keys first, in
      ascending numeric order, then the others in creation order.
    - Arrays of envelope items are mutable and live in a store, addressed by
      reference: [Array.prototype.filter] allocates a new array,
      [Array.prototype.sort] sorts the receiver in place and returns it.
    - [async] functions run to completion one after the other; a rejected
      promise is a thrown fault. The variable-service client is a pair of
      oracles, and every invocation is recorded in a call log. *)

From Stdlib Require Import ZArith Ascii String List Sorted Permutation Lia.
From stdpp Require Import base list strings.

Local Open Scope string_scope.
Local Open Scope list_scope.

(** ** Strings *)

Module Js.

(** One character of [String.prototype.toLowerCase], on ASCII. *)
Definition lower_ascii (c : ascii) : ascii :=
  let n := N_of_ascii c in
  if ((65 <=? n) && (n <=? 90))%N then ascii_of_N (n + 32) else c.

Fixpoint toLowerCase (s : string) : string :=
  match s with
  | EmptyString => EmptyString
  | String c s' => String (lower_ascii c) (toLowerCase s')
  end.

(** Truthiness of a string value: every string but the empty one. *)
Definition truthy (s : string) : bool :=
  match s with
  | EmptyString => false
  | String _ _ => true
  end.

(** [Array.prototype.includes] on a list of tags. *)
Definition includes {A} `{EqDecision A} (l : list A) (x : A) : bool :=
  existsb (fun y => bool_decide (y = x)) l.

(** [Array.prototype.sort] with a comparator. The engine consults the
    comparator only through the sign test [cmp a b < 0] and is stable:
    each element is placed behind every element that it does not
    precede. *)
Fixpoint sort_insert {A} (cmp : A -> A -> Z) (x : A) (l : list A) : list A :=
  match l with
  | [] => [x]
  | y :: l' =>
      if (cmp x y <? 0)%Z then x :: y :: l' else y :: sort_insert cmp x l'
  end.

Definition sort {A} (cmp : A -> A -> Z) (l : list A) : list A :=
  fold_left (fun acc x => sort_insert cmp x acc) l [].

End Js.

(** ** Objects as insertion-ordered dictionaries *)

Definition Obj (V : Type) : Type := list (string * V).

Section Objects.
Context {V : Type}.

Definition obj_empty : Obj V := [].

(** [o[k] = v]: an existing key keeps its place, a new key goes last. *)
Fixpoint obj_set (k : string) (v : V) (o : Obj V) : Obj V :=
  match o with
  | [] => [(k, v)]
  | (k', v') :: o' =>
      if String.eqb k k' then (k, v) :: o' else (k', v') :: obj_set k v o'
  end.

Fixpoint obj_get (k : string) (o : Obj V) : option V :=
  match o with
  | [] => None
  | (k', v') :: o' => if String.eqb k k' then Some v' else obj_get k o'
  end.

(** [{...acc, ...src}] continued from an object under construction. *)
Definition obj_spread (acc src : Obj V) : Obj V :=
  fold_left (fun a kv => obj_set (fst kv) (snd kv) a) src acc.

Definition Object_keys (o : Obj V) : list string := map fst o.
Definition Object_entries (o : Obj V) : list (string * V) := o.
Definition Object_fromEntries (l : list (string * V)) : Obj V :=
  obj_spread obj_empty l.

(** A JS object has each of its keys once. *)
Definition obj_wf (o : Obj V) : Prop := List.NoDup (Object_keys o).

End Objects.

(** ** Data model *)

Inductive DeployContext := Dev | BranchDeploy | DeployPreview | Production | All.
Inductive Scope := Any | Builds | Functions | Runtime | PostProcessing.
Inductive Source := General | Account | Addons | Ui | ConfigFile.

#[global] Instance DeployContext_eq_dec : EqDecision DeployContext.
Proof. solve_decision. Defined.
#[global] Instance Scope_eq_dec : EqDecision Scope.
Proof. solve_decision. Defined.
#[global] Instance Source_eq_dec : EqDecision Source.
Proof. solve_decision. Defined.

(** A value of a variable in one deploy context (remote shape). *)
Record ValueEntry := { context : DeployContext; value : string }.

(** A variable record of the Envelope service. *)
Record EnvelopeItem := {
  key : string;
  scopes : list Scope;
  values : list ValueEntry
}.

(** An entry of the resolved dictionary. Entries of the legacy env carry
    no context and no scopes. *)
Record EnvVariable := {
  var_context : option DeployContext;
  var_scopes : option (list Scope);
  sources : list Source;
  var_value : string
}.

Record SiteInfo := { account_slug : option string; id : option string }.

(** The variable-service client: [None] is a failed (rejected) call. *)
Record Api := {
  getEnvVar : string -> string -> option string -> option EnvelopeItem;
  getEnvVars : string -> option string -> option (list EnvelopeItem)
}.

Inductive ApiCall :=
| CallGetEnvVar (accountId key : string) (siteId : option string)
| CallGetEnvVars (accountId : string) (siteId : option string).

(** ** Store, faults and the execution monad *)

Inductive Fault := TypeError | ApiError.

Inductive Res (A : Type) :=
| Ok (a : A)
| Throw (e : Fault).
Arguments Ok {A} a.
Arguments Throw {A} e.

Record World := {
  arrays : list (list EnvelopeItem);
  calls : list ApiCall
}.

Definition M (A : Type) : Type := World -> Res A * World.

Definition ret {A} (a : A) : M A := fun w => (Ok a, w).
Definition throw {A} (e : Fault) : M A := fun w => (Throw e, w).
Definition bind {A B} (m : M A) (k : A -> M B) : M B :=
  fun w =>
    match m w with
    | (Ok a, w') => k a w'
    | (Throw e, w') => (Throw e, w')
    end.
Definition try_catch {A} (m : M A) (handler : Fault -> M A) : M A :=
  fun w =>
    match m w with
    | (Ok a, w') => (Ok a, w')
    | (Throw e, w') => handler e w'
    end.

Notation "'let*' x ':=' m 'in' k" := (bind m (fun x => k))
  (at level 10, x name, m at level 100, k at level 200).

(** A JS value that can stand for [envelopeItems]: the literal [{}] or a
    reference to an array of records. *)
Inductive JsValue := EmptyObject | ArrayRef (r : nat).

Section Arrays.

(** An array literal or any other fresh array. *)
Definition arr_new (items : list EnvelopeItem) : M nat :=
  fun w =>
    (Ok (length (arrays w)),
     {| arrays := arrays w ++ [items]; calls := calls w |}).

Definition arr_read (r : nat) : M (list EnvelopeItem) :=
  fun w =>
    match arrays w !! r with
    | Some items => (Ok items, w)
    | None => (Throw TypeError, w)
    end.

Definition arr_write (r : nat) (items : list EnvelopeItem) : M unit :=
  fun w => (Ok tt, {| arrays := <[r := items]> (arrays w); calls := calls w |}).

(** [arr.filter(p)]: a new array. *)
Definition arr_filter (p : EnvelopeItem -> bool) (r : nat) : M nat :=
  let* items := arr_read r in
  arr_new (List.filter p items).

(** [arr.sort(cmp)]: sorts [arr] itself and returns it. *)
Definition arr_sort (cmp : EnvelopeItem -> EnvelopeItem -> Z) (r : nat) : M nat :=
  let* items := arr_read r in
  let* _ := arr_write r (Js.sort cmp items) in
  ret r.

Fixpoint reduce_from {B} (f : B -> EnvelopeItem -> M B) (acc : B)
    (items : list EnvelopeItem) : M B :=
  match items with
  | [] => ret acc
  | cur :: rest => let* acc' := f acc cur in reduce_from f acc' rest
  end.

(** [arr.reduce(f, init)]. *)
Definition arr_reduce {B} (f : B -> EnvelopeItem -> M B) (init : B) (r : nat) : M B :=
  let* items := arr_read r in
  reduce_from f init items.

End Arrays.

(** ** The program *)

(** [values.find((val) => [context, 'all'].includes(val.context))] *)
Definition findValueFromContext (values : list ValueEntry) (ctx : DeployContext)
    : option ValueEntry :=
  List.find (fun val => Js.includes [ctx; All] (context val)) values.

(** [Object.fromEntries(Object.entries(env).filter(...))]; [sources[0]] of
    an empty sequence is [undefined] and equals no tag. *)
Definition filterEnvBySource (env : Obj EnvVariable) (source : Source)
    : Obj EnvVariable :=
  Object_fromEntries
    (List.filter
       (fun kv => bool_decide (head (sources (snd kv)) = Some source))
       (Object_entries env)).

Definition log_call (c : ApiCall) : M unit :=
  fun w => (Ok tt, {| arrays := arrays w; calls := calls w ++ [c] |}).

(** [await api.getEnvVar({ accountId, key, siteId })] *)
Definition api_getEnvVar (api : Api) (accountId key : string)
    (siteId : option string) : M EnvelopeItem :=
  let* _ := log_call (CallGetEnvVar accountId key siteId) in
  match getEnvVar api accountId key siteId with
  | Some item => ret item
  | None => throw ApiError
  end.

(** [await api.getEnvVars({ accountId, siteId })]: the list arrives as a
    fresh array. *)
Definition api_getEnvVars (api : Api) (accountId : string)
    (siteId : option string) : M nat :=
  let* _ := log_call (CallGetEnvVars accountId siteId) in
  match getEnvVars api accountId siteId with
  | Some items => arr_new items
  | None => throw ApiError
  end.

Definition fetchEnvelopeItems (accountId : option string) (api : Api)
    (key : string) (siteId : option string) : M JsValue :=
  match accountId with
  | None => ret EmptyObject
  | Some accountId =>
      try_catch
        (if Js.truthy key then
           let* envelopeItem := api_getEnvVar api accountId key siteId in
           let* r := arr_new [envelopeItem] in
           ret (ArrayRef r)
         else
           let* envelopeItems := api_getEnvVars api accountId siteId in
           ret (ArrayRef envelopeItems))
        (fun _ =>
           let* r := arr_new [] in
           ret (ArrayRef r))
  end.

(** The comparator of both sorts:
    [left.key.toLowerCase() < right.key.toLowerCase() ? -1 : 1]. *)
Definition compareKeys (left right : EnvelopeItem) : Z :=
  if String.ltb (Js.toLowerCase (key left)) (Js.toLowerCase (key right))
  then (-1)%Z else 1%Z.

Definition matchesContext (ctx : DeployContext) (item : EnvelopeItem) : bool :=
  match findValueFromContext (values item) ctx with
  | Some _ => true
  | None => false
  end.

Definition matchesScope (scope : Scope) (item : EnvelopeItem) : bool :=
  if bool_decide (scope = Any) then true else Js.includes (scopes item) scope.

(** The callback of the formatter's [reduce]. Destructuring [undefined]
    is a type fault. *)
Definition formatStep (ctx : DeployContext) (source : Source)
    (acc : Obj EnvVariable) (cur : EnvelopeItem) : M (Obj EnvVariable) :=
  match findValueFromContext (values cur) ctx with
  | None => throw TypeError
  | Some found =>
      ret (obj_set (key cur)
             {| var_context := Some (context found);
                var_scopes := Some (scopes cur);
                sources := [source];
                var_value := value found |}
             (obj_spread obj_empty acc))
  end.

(** Arguments are those after default substitution; [envelopeItems] is
    whatever the caller passes, and [{}] has no [filter] method. *)
Definition formatEnvelopeData (ctx : DeployContext) (envelopeItems : JsValue)
    (scope : Scope) (source : Source) : M (Obj EnvVariable) :=
  match envelopeItems with
  | EmptyObject => throw TypeError
  | ArrayRef items =>
      let* byContext := arr_filter (matchesContext ctx) items in
      let* byScope := arr_filter (matchesScope scope) byContext in
      let* sorted := arr_sort compareKeys byScope in
      arr_reduce (formatStep ctx source) obj_empty sorted
  end.

Definition includeConfigEnvVars (scope : Scope) : bool :=
  Js.includes [Any; Builds; PostProcessing] scope.

Definition getEnvelopeEnv (api : Api) (ctx : DeployContext)
    (env : Obj EnvVariable) (key : string) (scope : Scope)
    (siteInfo : SiteInfo) : M (Obj EnvVariable) :=
  let accountId := account_slug siteInfo in
  let siteId := id siteInfo in
  let* accountEnvelopeItems := fetchEnvelopeItems accountId api key None in
  let* siteEnvelopeItems := fetchEnvelopeItems accountId api key siteId in
  let* accountEnv := formatEnvelopeData ctx accountEnvelopeItems scope Account in
  let* siteEnv := formatEnvelopeData ctx siteEnvelopeItems scope Ui in
  let generalEnv := filterEnvBySource env General in
  let addonsEnv := filterEnvBySource env Addons in
  let configFileEnv := filterEnvBySource env ConfigFile in
  ret (obj_spread
         (obj_spread
            (obj_spread
               (obj_spread
                  (obj_spread obj_empty generalEnv)
                  accountEnv)
               (if includeConfigEnvVars scope then addonsEnv else obj_empty))
            siteEnv)
         (if includeConfigEnvVars scope then configFileEnv else obj_empty)).

(** [Object.entries(env).map(...)]: a fresh array of records. *)
Definition translateFromMongoToEnvelope (env : Obj string) : M nat :=
  arr_new
    (map
       (fun kv =>
          {| key := fst kv;
             scopes := [Builds; Functions; Runtime; PostProcessing];
             values := [ {| context := All; value := snd kv |} ] |})
       (Object_entries env)).

(** The callback of the translator's [reduce]. *)
Definition mongoStep (acc : Obj string) (cur : EnvelopeItem) : M (Obj string) :=
  match List.find (fun val => Js.includes [Dev; All] (context val)) (values cur) with
  | Some envVar =>
      if Js.truthy (value envVar)
      then ret (obj_set (key cur) (value envVar) (obj_spread obj_empty acc))
      else ret acc
  | None => ret acc
  end.

Definition translateFromEnvelopeToMongo (envVars : nat) : M (Obj string) :=
  let* sorted := arr_sort compareKeys envVars in
  arr_reduce mongoStep obj_empty sorted.

(** ** Vocabulary of the statements *)

Definition ci_le (s t : string) : Prop :=
  String.ltb (Js.toLowerCase t) (Js.toLowerCase s) = false.

Definition item_le (a b : EnvelopeItem) : Prop := ci_le (key a) (key b).

(** The order that a comparator induces through its sign test: [a] does
    not come after [b]. *)
Definition cmp_le {A} (cmp : A -> A -> Z) (a b : A) : Prop :=
  (cmp b a <? 0)%Z = false.


(** [found] is the first entry of [vs] whose context is among [cands]. *)
Definition first_match (cands : list DeployContext) (vs : list ValueEntry)
    (found : ValueEntry) : Prop :=
  exists pre post,
    vs = pre ++ found :: post /\
    Forall (fun v => ~ In (context v) cands) pre /\
    In (context found) cands.

(** What the formatter emits for one record. *)
Definition emitted (ctx : DeployContext) (source : Source)
    (it : EnvelopeItem) (kv : string * EnvVariable) : Prop :=
  fst kv = key it /\
  exists found,
    first_match [ctx; All] (values it) found /\
    snd kv = {| var_context := Some (context found);
                var_scopes := Some (scopes it);
                sources := [source];
                var_value := value found |}.

(** What the Multi-to-Flat translator emits for a sequence of records. *)
Definition mongoEntries (items : list EnvelopeItem) : list (string * string) :=
  flat_map
    (fun cur =>
       match List.find (fun val => Js.includes [Dev; All] (context val)) (values cur) with
       | Some envVar =>
           if Js.truthy (value envVar) then [(key cur, value envVar)] else []
       | None => []
       end)
    items.

(** The content of the array that a fetch with an account yields, and the
    client call that it makes. *)
Definition remoteItems (api : Api) (accountId key : string)
    (siteId : option string) : list EnvelopeItem :=
  if Js.truthy key then
    match getEnvVar api accountId key siteId with
    | Some item => [item]
    | None => []
    end
  else
    match getEnvVars api accountId siteId with
    | Some items => items
    | None => []
    end.

Definition remoteCall (accountId key : string) (siteId : option string) : ApiCall :=
  if Js.truthy key then CallGetEnvVar accountId key siteId
  else CallGetEnvVars accountId siteId.

Definition clientFails (api : Api) (accountId key : string)
    (siteId : option string) : Prop :=
  if Js.truthy key then getEnvVar api accountId key siteId = None
  else getEnvVars api accountId siteId = None.

(** The entry that a merge in ascending precedence returns for [k]: that of
    the last source that has the key. *)
Fixpoint lookup_by_precedence {V} (k : string) (ascending : list (Obj V)) : option V :=
  match ascending with
  | [] => None
  | src :: higher =>
      match lookup_by_precedence k higher with
      | Some v => Some v
      | None => obj_get k src
      end
  end.

Definition all_sources : list Source := [General; Account; Addons; Ui; ConfigFile].

(** The dictionaries that take part in the merge of [getEnvelopeEnv], in
    ascending precedence. *)
Definition includedSources (env : Obj EnvVariable) (scope : Scope)
    (accountEnv siteEnv : Obj EnvVariable) : list (Obj EnvVariable) :=
  [filterEnvBySource env General; accountEnv]
  ++ (if includeConfigEnvVars scope then [filterEnvBySource env Addons] else [])
  ++ [siteEnv]
  ++ (if includeConfigEnvVars scope then [filterEnvBySource env ConfigFile] else []).

(** Whether the Multi-to-Flat translator emits a key for a record. *)
Definition emitsMongo (cur : EnvelopeItem) : bool :=
  match List.find (fun val => Js.includes [Dev; All] (context val)) (values cur) with
  | Some envVar => Js.truthy (value envVar)
  | None => false
  end.

(** Flat to Multi and back, as one computation. *)
Definition mongoRoundTrip (env : Obj string) : M (Obj string) :=
  let* envVars := translateFromMongoToEnvelope env in
  translateFromEnvelopeToMongo envVars.

(** ** Sample data *)

Module Sample.

Definition record (k : string) (scs : list Scope) (c : DeployContext)
    (v : string) : EnvelopeItem :=
  {| key := k; scopes := scs; values := [ {| context := c; value := v |} ] |}.

Definition legacyEntry (source : Source) (v : string) : EnvVariable :=
  {| var_context := None; var_scopes := None; sources := [source]; var_value := v |}.

Definition emptyWorld : World := {| arrays := []; calls := [] |}.

Definition site : SiteInfo :=
  {| account_slug := Some "acme"; id := Some "site-1" |}.

Definition anonymousSite : SiteInfo :=
  {| account_slug := None; id := Some "site-1" |}.

(** Account level: [A = 2]; site level: [A = 3]; a single key is served
    as asked. *)
Definition api : Api :=
  {| getEnvVar := fun _ k _ => Some (record k [Builds; Functions] All "remote");
     getEnvVars := fun _ siteId =>
       match siteId with
       | None => Some [record "A" [Builds; Functions] All "2"]
       | Some _ => Some [record "A" [Builds; Functions] Dev "3"]
       end |}.

(** A client that a collaborator without access sees. *)
Definition deniedApi : Api :=
  {| getEnvVar := fun _ _ _ => None; getEnvVars := fun _ _ => None |}.

Definition env : Obj EnvVariable :=
  [ ("A", legacyEntry General "1");
    ("ADDON_URL", legacyEntry Addons "addon");
    ("FROM_TOML", legacyEntry ConfigFile "toml") ].

(** One entry for each source tag. *)
Definition envOfEachSource : Obj EnvVariable :=
  [ ("G", legacyEntry General "g");
    ("T", legacyEntry Account "t");
    ("N", legacyEntry Addons "n");
    ("U", legacyEntry Ui "u");
    ("C", legacyEntry ConfigFile "c") ].

Definition fruit : list EnvelopeItem :=
  [ record "banana" [Builds] All "yellow"; record "Apple" [Builds] Dev "red" ].

Definition fruitWorld : World := {| arrays := [fruit]; calls := [] |}.

End Sample.

(** Distinctness of the keys of a concrete object. *)
Ltac solve_wf :=
  unfold obj_wf; simpl; repeat constructor; simpl; intuition discriminate.

(** ** Scope labels *)

(** [Array.prototype.join]: an [undefined] element is rendered as the empty
    string. *)
Fixpoint join (sep : string) (l : list (option string)) : string :=
  match l with
  | [] => ""
  | x :: rest =>
      match rest with
      | [] => default "" x
      | _ :: _ => (default "" x ++ sep ++ join sep rest)%string
      end
  end.

(** The label table of [getHumanReadableScopes], in source order. *)
Definition AVAILABLE_SCOPES : list (Scope * string) :=
  [ (Builds, "Builds");
    (Functions, "Functions");
    (PostProcessing, "Post processing");
    (Runtime, "Runtime") ].

(** [AVAILABLE_SCOPES[scope]]: [undefined] for a tag that the table lacks. *)
Definition scopeLabel (scope : Scope) : option string :=
  snd <$> List.find (fun kv => bool_decide (fst kv = scope)) AVAILABLE_SCOPES.

(** [scopes] is [None] when the entry has no [scopes] ([undefined] or
    [null]); an empty array is truthy. *)
Definition getHumanReadableScopes (scopes : option (list Scope)) : string :=
  match scopes with
  | None => "Builds, Post processing"
  | Some scopes =>
      if Nat.eqb (length scopes) (length AVAILABLE_SCOPES) then "All"
      else join ", " (map scopeLabel scopes)
  end.

(** ** Plugins *)

(** The value of a property of a plugin object. *)
Inductive PropValue := PUndefined | PString (s : string) | PBool (b : bool).

#[global] Instance PropValue_eq_dec : EqDecision PropValue.
Proof. solve_decision. Defined.

(** [o.name]: [undefined] when the object has no such property. *)
Definition prop (o : Obj PropValue) (name : string) : PropValue :=
  default PUndefined (obj_get name o).

Record Config := { plugins : list (Obj PropValue) }.

Record InstallOptions := {
  installSinglePlugin : PropValue;
  explicitPlugins : option (list string);
  recommendedPlugins : list string
}.

(** [fetchPlugins] is the outcome of the request: [None] when [fetch]
    rejects, [Some None] when [response.json()] rejects, and the parsed
    body otherwise; [pluginsList] is the bundled list. *)
Definition getPluginsList (fetchPlugins : option (option (list (Obj PropValue))))
    (pluginsList : list (Obj PropValue)) : M (list (Obj PropValue)) :=
  try_catch
    (let* response :=
       match fetchPlugins with
       | Some response => ret response
       | None => throw ApiError
       end in
     match response with
     | Some body => ret body
     | None => throw ApiError
     end)
    (fun _ => ret pluginsList).

Definition getPluginInfo (list : list (Obj PropValue)) (packageName : string)
    : option (Obj PropValue) :=
  List.find (fun o => bool_decide (prop o "package" = PString packageName)) list.

Definition isPluginInstalled (configPlugins : list (Obj PropValue))
    (plugin : string) : bool :=
  existsb (fun o => bool_decide (prop o "package" = PString plugin)) configPlugins.

Definition getRecommendPlugins (frameworkPlugins : list string) (config : Config)
    : list string :=
  List.filter (fun plugin => negb (isPluginInstalled (plugins config) plugin))
    frameworkPlugins.

(** [recommendedPlugins[0]] of an empty array is [undefined].
    [explicitPlugins] is the [plugins] option when it is an array. *)
Definition getPluginsToInstall (options : InstallOptions) : list (Obj PropValue) :=
  match explicitPlugins options with
  | Some plugins =>
      map (fun plugin => obj_set "package" (PString plugin) obj_empty) plugins
  | None =>
      if bool_decide (installSinglePlugin options = PBool true)
      then [ obj_set "package"
               match head (recommendedPlugins options) with
               | Some plugin => PString plugin
               | None => PUndefined
               end
               obj_empty ]
      else []
  end.

Definition getUIPlugins (configPlugins : list (Obj PropValue))
    : list (Obj PropValue) :=
  map (fun o => obj_set "package" (prop o "package") obj_empty)
    (List.filter (fun o => bool_decide (prop o "origin" = PString "ui"))
       configPlugins).

(** ** More vocabulary *)

(** The record that [translateFromMongoToEnvelope] makes of a flat entry. *)
Definition recordOfFlat (kv : string * string) : EnvelopeItem :=
  {| key := fst kv;
     scopes := [Builds; Functions; Runtime; PostProcessing];
     values := [ {| context := All; value := snd kv |} ] |}.

(** Whether the first source of a legacy entry is one that
    [getEnvelopeEnv] reads from the legacy env. *)
Definition readFromLegacy (kv : string * EnvVariable) : bool :=
  Js.includes [Some General; Some Addons; Some ConfigFile] (head (sources (snd kv))).

(** A legacy env migrated to Envelope and formatted, as one computation. *)
Definition formatMigrated (ctx : DeployContext) (env : Obj string)
    (scope : Scope) (source : Source) : M (Obj EnvVariable) :=
  let* envVars := translateFromMongoToEnvelope env in
  formatEnvelopeData ctx (ArrayRef envVars) scope source.

(** The same call made twice in a row, keeping both results. *)
Definition twice {A} (m : M A) : M (A * A) :=
  let* first := m in
  let* second := m in
  ret (first, second).

Module SamplePlugins.

Definition installed : list (Obj PropValue) :=
  [ [("package", PString "netlify-plugin-a"); ("origin", PString "ui")];
    [("package", PString "netlify-plugin-b"); ("origin", PString "config")] ].

Definition config : Config := {| plugins := installed |}.

Definition framework : list string :=
  [ "netlify-plugin-b"; "@netlify/plugin-nextjs" ].

End SamplePlugins.

(** ** Enumeration order of keys, and plain keys *)






(** Whether a string is made of ASCII characters only; on such strings
    [Js.toLowerCase] and [String.ltb] are the operations of JS. *)
Fixpoint isAscii (s : string) : bool :=
  match s with
  | EmptyString => true
  | String c s' => ((N_of_ascii c <? 128)%N && isAscii s')%bool
  end.

Module SampleKeys.



End SampleKeys.

(** ** Facts on the string order *)


Lemma compare_not_Gt_trans (a b c : string) :
  String.compare a b <> Gt -> String.compare b c <> Gt -> String.compare a c <> Gt.
Proof.
  revert b c. induction a as [|x a IH]; intros [|y b] [|z c]; simpl; try congruence.
  unfold Ascii.compare.
  destruct (N.compare_spec (N_of_ascii x) (N_of_ascii y)),
    (N.compare_spec (N_of_ascii y) (N_of_ascii z)),
    (N.compare_spec (N_of_ascii x) (N_of_ascii z));
    try congruence; try lia; eauto.
Qed.

Lemma ltb_false_not_Gt (s t : string) :
  String.ltb t s = false <-> String.compare s t <> Gt.
Proof.
  unfold String.ltb. rewrite (String.compare_antisym s t).
  destruct (String.compare t s); simpl; split; congruence.
Qed.


Lemma ltb_asym (s t : string) : String.ltb s t = true -> String.ltb t s = false.
Proof.
  unfold String.ltb. rewrite (String.compare_antisym s t).
  destruct (String.compare t s); simpl; congruence.
Qed.

Lemma ci_le_trans (a b c : string) : ci_le a b -> ci_le b c -> ci_le a c.
Proof.
  unfold ci_le. rewrite !ltb_false_not_Gt. apply compare_not_Gt_trans.
Qed.

Lemma compareKeys_neg (a b : EnvelopeItem) :
  (compareKeys a b <? 0)%Z = String.ltb (Js.toLowerCase (key a)) (Js.toLowerCase (key b)).
Proof. unfold compareKeys. now destruct (String.ltb _ _). Qed.

(** ** Facts on the sort *)

Lemma filter_none {A} (P : A -> bool) (l : list A) :
  (forall z, In z l -> P z = false) -> List.filter P l = [].
Proof.
  induction l as [|y l IH]; intros H; simpl; [reflexivity|].
  rewrite (H y) by now left. apply IH. intros z Hz. apply H. now right.
Qed.

Section SortFacts.
Context {A : Type} (cmp : A -> A -> Z).

Hypothesis precedes_asym : forall a b, (cmp a b <? 0)%Z = true -> cmp_le cmp a b.
Hypothesis le_trans :
  forall a b c, cmp_le cmp a b -> cmp_le cmp b c -> cmp_le cmp a c.

Lemma sort_insert_perm (x : A) (l : list A) :
  Permutation (Js.sort_insert cmp x l) (x :: l).
Proof.
  induction l as [|y l IH]; simpl; [reflexivity|].
  destruct (cmp x y <? 0)%Z; [reflexivity|].
  rewrite IH. apply perm_swap.
Qed.

Lemma sort_from_perm (l acc : list A) :
  Permutation (fold_left (fun acc x => Js.sort_insert cmp x acc) l acc) (acc ++ l).
Proof.
  revert acc. induction l as [|x l IH]; intros acc; simpl.
  - now rewrite app_nil_r.
  - rewrite IH, sort_insert_perm. apply Permutation_middle.
Qed.

Lemma sort_perm (l : list A) : Permutation (Js.sort cmp l) l.
Proof. unfold Js.sort. now rewrite sort_from_perm. Qed.


Lemma sort_insert_sorted (x : A) (l : list A) :
  StronglySorted (cmp_le cmp) l ->
  StronglySorted (cmp_le cmp) (Js.sort_insert cmp x l).
Proof.
  induction 1 as [|y l Hs IH Hy]; simpl.
  - repeat constructor.
  - destruct (cmp x y <? 0)%Z eqn:Hxy.
    + constructor; [now constructor|].
      constructor; [now apply precedes_asym|].
      eapply Forall_impl; [exact Hy|].
      intros z Hz. eapply le_trans; [|exact Hz]. now apply precedes_asym.
    + constructor; [exact IH|].
      rewrite (sort_insert_perm x l). now constructor.
Qed.

Lemma sort_from_sorted (l acc : list A) :
  StronglySorted (cmp_le cmp) acc ->
  StronglySorted (cmp_le cmp)
    (fold_left (fun acc x => Js.sort_insert cmp x acc) l acc).
Proof.
  revert acc. induction l as [|x l IH]; intros acc Hacc; simpl; [exact Hacc|].
  apply IH. now apply sort_insert_sorted.
Qed.

Lemma sort_sorted (l : list A) : StronglySorted (cmp_le cmp) (Js.sort cmp l).
Proof. apply sort_from_sorted. constructor. Qed.

(** Stability, for a class [P] of elements none of which precedes
    another. *)
Section Stable.
Variable P : A -> bool.
Hypothesis P_ties : forall a b, P a = true -> P b = true -> cmp_le cmp a b.



End Stable.
End SortFacts.

(** ** Facts on objects *)

Section ObjFacts.
Context {V : Type}.
Implicit Types (o acc src : Obj V) (k : string) (v : V).

Lemma obj_get_set k k' v o :
  obj_get k (obj_set k' v o) = if String.eqb k k' then Some v else obj_get k o.
Proof.
  induction o as [|[k0 v0] o IH]; simpl.
  - now destruct (String.eqb k k').
  - destruct (String.eqb_spec k' k0) as [->|Hne]; simpl.
    + now destruct (String.eqb k k0).
    + rewrite IH. destruct (String.eqb_spec k k0) as [->|]; [|reflexivity].
      destruct (String.eqb_spec k0 k'); congruence.
Qed.

Lemma keys_set k k' v o :
  In k (Object_keys (obj_set k' v o)) <-> k = k' \/ In k (Object_keys o).
Proof.
  induction o as [|[k0 v0] o IH]; simpl.
  - intuition.
  - destruct (String.eqb_spec k' k0) as [->|Hne]; simpl.
    + intuition.
    + rewrite IH. intuition.
Qed.

Lemma obj_set_fresh k v o :
  ~ In k (Object_keys o) -> obj_set k v o = o ++ [(k, v)].
Proof.
  induction o as [|[k0 v0] o IH]; simpl; intros Hk; [reflexivity|].
  destruct (String.eqb_spec k k0) as [->|Hne]; [tauto|].
  rewrite IH; tauto.
Qed.

Lemma keys_set_list k v o :
  Object_keys (obj_set k v o) = Object_keys o \/
  (~ In k (Object_keys o) /\ Object_keys (obj_set k v o) = Object_keys o ++ [k]).
Proof.
  induction o as [|[k0 v0] o IH]; simpl.
  - right. tauto.
  - destruct (String.eqb_spec k k0) as [->|Hne]; simpl; [now left|].
    destruct IH as [->|[Hk ->]]; [now left|right].
    split; [intuition congruence|reflexivity].
Qed.

Lemma wf_set k v o : obj_wf o -> obj_wf (obj_set k v o).
Proof.
  unfold obj_wf. intros Hwf.
  destruct (keys_set_list k v o) as [->|[Hk ->]]; [exact Hwf|].
  apply List.NoDup_app; [exact Hwf|repeat constructor; simpl; tauto|].
  intros x Hx [<-|[]]. tauto.
Qed.

Lemma obj_get_None k o : obj_get k o = None <-> ~ In k (Object_keys o).
Proof.
  induction o as [|[k0 v0] o IH]; simpl; [tauto|].
  destruct (String.eqb_spec k k0) as [->|Hne].
  - split; [discriminate|tauto].
  - rewrite IH. intuition congruence.
Qed.

Lemma obj_get_In k v o : obj_get k o = Some v -> In (k, v) o.
Proof.
  induction o as [|[k0 v0] o IH]; simpl; [discriminate|].
  destruct (String.eqb_spec k k0) as [->|Hne]; [|auto].
  intros [= ->]. now left.
Qed.

Lemma In_keys k v o : In (k, v) o -> In k (Object_keys o).
Proof. intros H. apply in_map_iff. now exists (k, v). Qed.


Lemma In_obj_get k v o : obj_wf o -> In (k, v) o -> obj_get k o = Some v.
Proof.
  unfold obj_wf. induction o as [|[k0 v0] o IH]; simpl; [tauto|].
  intros Hwf Hin. apply List.NoDup_cons_iff in Hwf as [Hk0 Hwf].
  destruct Hin as [[= -> ->]|Hin].
  - now rewrite String.eqb_refl.
  - destruct (String.eqb_spec k k0) as [->|Hne]; [|auto].
    exfalso. apply Hk0. eapply In_keys, Hin.
Qed.

Lemma keys_spread k acc src :
  In k (Object_keys (obj_spread acc src)) <->
  In k (Object_keys acc) \/ In k (Object_keys src).
Proof.
  unfold obj_spread. revert acc.
  induction src as [|[k0 v0] src IH]; intros acc; simpl; [tauto|].
  rewrite IH, keys_set. intuition.
Qed.

Lemma wf_spread acc src : obj_wf acc -> obj_wf (obj_spread acc src).
Proof.
  unfold obj_spread. revert acc.
  induction src as [|[k0 v0] src IH]; intros acc Hacc; simpl; [exact Hacc|].
  apply IH. now apply wf_set.
Qed.

(** Whole-entry replacement: the later object wins for each of its keys. *)
Lemma obj_get_spread k acc src :
  obj_wf src ->
  obj_get k (obj_spread acc src) =
  match obj_get k src with
  | Some v => Some v
  | None => obj_get k acc
  end.
Proof.
  unfold obj_spread, obj_wf. revert acc.
  induction src as [|[k0 v0] src IH]; intros acc Hwf; simpl; [reflexivity|].
  apply List.NoDup_cons_iff in Hwf as [Hk0 Hwf].
  rewrite IH by exact Hwf. rewrite obj_get_set. cbn [fst snd] in *.
  destruct (String.eqb_spec k k0) as [->|Hne]; [|reflexivity].
  apply obj_get_None in Hk0. now rewrite Hk0.
Qed.

Lemma obj_spread_fresh acc src :
  List.NoDup (Object_keys (acc ++ src)) -> obj_spread acc src = acc ++ src.
Proof.
  unfold obj_spread. revert acc.
  induction src as [|[k0 v0] src IH]; intros acc Hnd; simpl.
  - now rewrite app_nil_r.
  - assert (Hk0 : ~ In k0 (Object_keys acc)).
    { unfold Object_keys in Hnd. rewrite map_app in Hnd. simpl in Hnd.
      apply List.NoDup_remove_2 in Hnd. rewrite in_app_iff in Hnd. tauto. }
    rewrite (obj_set_fresh _ _ _ Hk0), IH; rewrite <- app_assoc; [reflexivity|exact Hnd].
Qed.

Lemma obj_spread_empty o : obj_wf o -> obj_spread obj_empty o = o.
Proof. intros Hwf. now apply (obj_spread_fresh [] o). Qed.

Lemma wf_fromEntries (l : list (string * V)) : obj_wf (Object_fromEntries l).
Proof. apply wf_spread. constructor. Qed.

End ObjFacts.

(** ** Facts on matching *)

Lemma includes_In {A} `{EqDecision A} (l : list A) (x : A) :
  Js.includes l x = true <-> In x l.
Proof.
  unfold Js.includes. rewrite existsb_exists. split.
  - intros [y [Hy Heq]]. apply bool_decide_eq_true in Heq. now subst.
  - intros Hx. exists x. split; [exact Hx|]. now apply bool_decide_eq_true.
Qed.

Lemma find_first_match cands vs found :
  List.find (fun val => Js.includes cands (context val)) vs = Some found <->
  first_match cands vs found.
Proof.
  induction vs as [|v vs IH]; simpl.
  - split; [discriminate|]. intros (pre & post & Heq & _). now destruct pre.
  - destruct (Js.includes cands (context v)) eqn:Hv.
    + split.
      * intros [= <-]. exists [], vs. repeat split; [constructor|].
        now apply includes_In.
      * intros (pre & post & Heq & Hpre & Hf). destruct pre as [|p pre].
        -- now injection Heq as ->.
        -- injection Heq as <- _. apply Forall_cons in Hpre as [Hp _].
           apply includes_In in Hv. tauto.
    + rewrite IH. split.
      * intros (pre & post & -> & Hpre & Hf). exists (v :: pre), post.
        repeat split; [|exact Hf]. constructor; [|exact Hpre].
        intros Hin. apply includes_In in Hin. congruence.
      * intros (pre & post & Heq & Hpre & Hf). destruct pre as [|p pre].
        -- injection Heq as ->. apply includes_In in Hf. congruence.
        -- injection Heq as <- ->. apply Forall_cons in Hpre as [_ Hpre].
           now exists pre, post.
Qed.

Lemma find_no_match cands vs :
  List.find (fun val => Js.includes cands (context val)) vs = None <->
  Forall (fun v => ~ In (context v) cands) vs.
Proof.
  induction vs as [|v vs IH]; simpl.
  - split; [constructor|reflexivity].
  - destruct (Js.includes cands (context v)) eqn:Hv.
    + split; [discriminate|]. intros Hall. apply Forall_cons in Hall as [Hn _].
      apply includes_In in Hv. tauto.
    + rewrite IH. split.
      * intros Hall. constructor; [|exact Hall].
        intros Hin. apply includes_In in Hin. congruence.
      * intros Hall. now apply Forall_cons in Hall as [_ Hall].
Qed.



(** ** Facts on the store *)

Lemma lookup_snoc {A} (l : list A) (x : A) : (l ++ [x]) !! length l = Some x.
Proof. induction l; simpl; auto. Qed.

Lemma insert_snoc {A} (l : list A) (x y : A) :
  <[length l := y]> (l ++ [x]) = l ++ [y].
Proof. induction l; simpl; [reflexivity|]. now f_equal. Qed.

Lemma lookup_snoc_old {A} (l : list A) (x : A) (r : nat) (y : A) :
  l !! r = Some y -> (l ++ [x]) !! r = Some y.
Proof. intros H. rewrite lookup_app_l; [exact H|]. eapply lookup_lt_Some, H. Qed.

Lemma arr_filter_run p r items w :
  arrays w !! r = Some items ->
  arr_filter p r w =
  (Ok (length (arrays w)),
   {| arrays := arrays w ++ [List.filter p items]; calls := calls w |}).
Proof. intros H. unfold arr_filter, bind, arr_read. now rewrite H. Qed.

Lemma arr_sort_run cmp r items w :
  arrays w !! r = Some items ->
  arr_sort cmp r w =
  (Ok r, {| arrays := <[r := Js.sort cmp items]> (arrays w); calls := calls w |}).
Proof. intros H. unfold arr_sort, bind, arr_read. now rewrite H. Qed.

Lemma arr_reduce_run {B} (f : B -> EnvelopeItem -> M B) init r items w :
  arrays w !! r = Some items ->
  arr_reduce f init r w = reduce_from f init items w.
Proof. intros H. unfold arr_reduce, bind, arr_read. now rewrite H. Qed.

(** ** Facts on the two reductions *)

Lemma NoDup_keys_snoc {V} (acc : Obj V) (k : string) (v : V) (ks : list string) :
  List.NoDup (Object_keys acc ++ k :: ks) ->
  ~ In k (Object_keys acc) /\ obj_wf acc /\
  List.NoDup (Object_keys (acc ++ [(k, v)]) ++ ks).
Proof.
  intros Hnd. split; [|split].
  - apply List.NoDup_remove_2 in Hnd. rewrite in_app_iff in Hnd. tauto.
  - now apply NoDup_app_remove_r in Hnd.
  - unfold Object_keys. rewrite map_app, <- app_assoc. exact Hnd.
Qed.

Lemma formatStep_run ctx source acc cur found w :
  findValueFromContext (values cur) ctx = Some found ->
  formatStep ctx source acc cur w =
  (Ok (obj_set (key cur)
         {| var_context := Some (context found);
            var_scopes := Some (scopes cur);
            sources := [source];
            var_value := value found |}
         (obj_spread obj_empty acc)), w).
Proof. intros H. unfold formatStep. now rewrite H. Qed.

Lemma mongoStep_run acc cur w :
  mongoStep acc cur w =
  (Ok match List.find (fun val => Js.includes [Dev; All] (context val)) (values cur) with
      | Some envVar =>
          if Js.truthy (value envVar)
          then obj_set (key cur) (value envVar) (obj_spread obj_empty acc)
          else acc
      | None => acc
      end, w).
Proof.
  unfold mongoStep. destruct (List.find _ (values cur)) as [envVar|]; [|reflexivity].
  now destruct (Js.truthy (value envVar)).
Qed.

Lemma reduce_formatStep ctx source items acc w :
  Forall (fun it => matchesContext ctx it = true) items ->
  List.NoDup (Object_keys acc ++ map key items) ->
  exists out,
    reduce_from (formatStep ctx source) acc items w = (Ok (acc ++ out), w) /\
    Forall2 (emitted ctx source) items out.
Proof.
  revert acc. induction items as [|cur items IH]; intros acc Hall Hnd; simpl.
  - exists []. rewrite app_nil_r. split; [reflexivity|constructor].
  - apply Forall_cons in Hall as [Hcur Hall]. simpl in Hnd.
    unfold matchesContext in Hcur.
    destruct (findValueFromContext (values cur) ctx) as [found|] eqn:Hf;
      [|discriminate].
    unfold bind. rewrite (formatStep_run _ _ _ _ _ _ Hf).
    set (entry := {| var_context := Some (context found);
                     var_scopes := Some (scopes cur);
                     sources := [source];
                     var_value := value found |}).
    destruct (NoDup_keys_snoc acc (key cur) entry _ Hnd) as (Hk & Hwf & Hnd').
    rewrite (obj_spread_empty acc Hwf), (obj_set_fresh _ _ _ Hk).
    destruct (IH _ Hall Hnd') as (out & Hrun & Hout).
    exists ((key cur, entry) :: out). rewrite Hrun, <- app_assoc.
    split; [reflexivity|]. constructor; [|exact Hout].
    split; [reflexivity|]. exists found. split; [|reflexivity].
    now apply find_first_match.
Qed.

Lemma reduce_mongoStep items acc w :
  List.NoDup (Object_keys acc ++ map key items) ->
  reduce_from mongoStep acc items w = (Ok (acc ++ mongoEntries items), w).
Proof.
  revert acc. induction items as [|cur items IH]; intros acc Hnd; simpl.
  - now rewrite app_nil_r.
  - simpl in Hnd. unfold bind. rewrite mongoStep_run.
    destruct (List.find _ (values cur)) as [envVar|] eqn:Hf.
    + destruct (Js.truthy (value envVar)) eqn:Ht.
      * destruct (NoDup_keys_snoc acc (key cur) (value envVar) _ Hnd)
          as (Hk & Hwf & Hnd').
        rewrite (obj_spread_empty acc Hwf), (obj_set_fresh _ _ _ Hk).
        rewrite (IH _ Hnd'), <- app_assoc. reflexivity.
      * apply IH. apply List.NoDup_remove_1 in Hnd. exact Hnd.
    + apply IH. apply List.NoDup_remove_1 in Hnd. exact Hnd.
Qed.

(** ** Facts on the comparator *)

Lemma compareKeys_asym a b :
  (compareKeys a b <? 0)%Z = true -> cmp_le compareKeys a b.
Proof. unfold cmp_le. rewrite !compareKeys_neg. apply ltb_asym. Qed.

Lemma compareKeys_le_trans a b c :
  cmp_le compareKeys a b -> cmp_le compareKeys b c -> cmp_le compareKeys a c.
Proof.
  unfold cmp_le. rewrite !compareKeys_neg.
  apply (ci_le_trans (key a) (key b) (key c)).
Qed.

Lemma sort_compareKeys_sorted l : StronglySorted item_le (Js.sort compareKeys l).
Proof.
  pose proof (sort_sorted compareKeys compareKeys_asym compareKeys_le_trans l) as H.
  induction H as [|a s Hs IH Ha]; constructor; [exact IH|].
  eapply Forall_impl; [exact Ha|].
  intros b Hb. unfold item_le, ci_le. unfold cmp_le in Hb.
  now rewrite <- compareKeys_neg.
Qed.


Lemma NoDup_map_filter {A B} (f : A -> B) (p : A -> bool) (l : list A) :
  List.NoDup (map f l) -> List.NoDup (map f (List.filter p l)).
Proof.
  induction l as [|x l IH]; simpl; intros Hnd; [constructor|].
  apply List.NoDup_cons_iff in Hnd as [Hx Hnd].
  destruct (p x); simpl; [|auto].
  constructor; [|auto]. intros Hin. apply Hx.
  apply in_map_iff in Hin as (y & Hy & Hin). apply filter_In in Hin as [Hin _].
  apply in_map_iff. eauto.
Qed.



(** ** What a run of each function returns and leaves in the store *)

Lemma formatEnvelopeData_run ctx r scope source items w :
  arrays w !! r = Some items ->
  List.NoDup (map key items) ->
  exists out,
    formatEnvelopeData ctx (ArrayRef r) scope source w =
    (Ok out,
     {| arrays := (arrays w ++ [List.filter (matchesContext ctx) items]) ++
                  [Js.sort compareKeys
                     (List.filter (matchesScope scope)
                        (List.filter (matchesContext ctx) items))];
        calls := calls w |}) /\
    Forall2 (emitted ctx source)
      (Js.sort compareKeys
         (List.filter (matchesScope scope)
            (List.filter (matchesContext ctx) items))) out.
Proof.
  intros Hr Hnd.
  set (byContext := List.filter (matchesContext ctx) items).
  set (byScope := List.filter (matchesScope scope) byContext).
  set (sorted := Js.sort compareKeys byScope).
  assert (Hperm : Permutation sorted byScope).
  { apply sort_perm. }
  destruct (reduce_formatStep ctx source sorted []
              {| arrays := (arrays w ++ [byContext]) ++ [sorted]; calls := calls w |})
    as (out & Hrun & Hout).
  - apply Forall_forall. intros it Hit.
    apply list_elem_of_In in Hit. apply (Permutation_in _ Hperm) in Hit.
    apply filter_In in Hit as [Hit _]. now apply filter_In in Hit as [_ Hit].
  - simpl. apply (Permutation_NoDup (Permutation_map key (Permutation_sym Hperm))).
    now do 2 apply NoDup_map_filter.
  - exists out. split; [|exact Hout].
    unfold formatEnvelopeData, bind.
    rewrite (arr_filter_run _ _ _ _ Hr).
    erewrite arr_filter_run by (simpl; apply lookup_snoc).
    erewrite arr_sort_run by (simpl; apply lookup_snoc).
    erewrite arr_reduce_run by (simpl; rewrite insert_snoc; apply lookup_snoc).
    simpl. rewrite insert_snoc. exact Hrun.
Qed.

Lemma translateFromEnvelopeToMongo_run r items w :
  arrays w !! r = Some items ->
  List.NoDup (map key items) ->
  translateFromEnvelopeToMongo r w =
  (Ok (mongoEntries (Js.sort compareKeys items)),
   {| arrays := <[r := Js.sort compareKeys items]> (arrays w); calls := calls w |}).
Proof.
  intros Hr Hnd. unfold translateFromEnvelopeToMongo, bind.
  rewrite (arr_sort_run _ _ _ _ Hr).
  erewrite arr_reduce_run.
  - apply (reduce_mongoStep _ []). simpl.
    apply (Permutation_NoDup
             (Permutation_map key (Permutation_sym (sort_perm compareKeys items)))).
    exact Hnd.
  - simpl. apply list_lookup_insert_eq. eapply lookup_lt_Some, Hr.
Qed.

Lemma fetchEnvelopeItems_run accountId api key siteId w :
  fetchEnvelopeItems (Some accountId) api key siteId w =
  (Ok (ArrayRef (length (arrays w))),
   {| arrays := arrays w ++ [remoteItems api accountId key siteId];
      calls := calls w ++ [remoteCall accountId key siteId] |}).
Proof.
  unfold fetchEnvelopeItems, try_catch, bind, remoteItems, remoteCall.
  destruct (Js.truthy key).
  - unfold api_getEnvVar, bind, log_call.
    now destruct (getEnvVar api accountId key siteId).
  - unfold api_getEnvVars, bind, log_call.
    now destruct (getEnvVars api accountId siteId).
Qed.

Lemma reduce_formatStep_total ctx source items acc w :
  Forall (fun it => matchesContext ctx it = true) items ->
  obj_wf acc ->
  Forall (fun kv => sources (snd kv) = [source]) acc ->
  exists out,
    reduce_from (formatStep ctx source) acc items w = (Ok out, w) /\
    obj_wf out /\
    Forall (fun kv => sources (snd kv) = [source]) out /\
    (forall k, In k (Object_keys out) ->
               In k (Object_keys acc) \/ In k (map key items)).
Proof.
  revert acc. induction items as [|cur items IH]; intros acc Hall Hwf Hsrc; simpl.
  - exists acc. repeat split; auto.
  - apply Forall_cons in Hall as [Hcur Hall]. unfold matchesContext in Hcur.
    destruct (findValueFromContext (values cur) ctx) as [found|] eqn:Hf;
      [|discriminate].
    unfold bind. rewrite (formatStep_run _ _ _ _ _ _ Hf).
    rewrite (obj_spread_empty acc Hwf).
    set (entry := {| var_context := Some (context found);
                     var_scopes := Some (scopes cur);
                     sources := [source];
                     var_value := value found |}).
    destruct (IH (obj_set (key cur) entry acc) Hall) as (out & Hrun & Hout & Hs & Hk).
    + now apply wf_set.
    + apply Forall_forall. intros [k v] Hkv. apply list_elem_of_In in Hkv. simpl.
      assert (Hg : obj_get k (obj_set (key cur) entry acc) = Some v).
      { apply In_obj_get; [now apply wf_set|exact Hkv]. }
      rewrite obj_get_set in Hg. destruct (String.eqb k (key cur)).
      * now injection Hg as <-.
      * apply obj_get_In in Hg. rewrite Forall_forall in Hsrc.
        apply (Hsrc (k, v)). now apply list_elem_of_In.
    + exists out. repeat split; auto.
      intros k Hin. apply Hk in Hin as [Hin|Hin]; [|now right; right].
      apply keys_set in Hin as [->|Hin]; [right; now left|now left].
Qed.

Lemma formatEnvelopeData_total ctx r scope source items w :
  arrays w !! r = Some items ->
  exists out w',
    formatEnvelopeData ctx (ArrayRef r) scope source w = (Ok out, w') /\
    calls w' = calls w /\
    length (arrays w) <= length (arrays w') /\
    (forall r' old, arrays w !! r' = Some old -> arrays w' !! r' = Some old) /\
    obj_wf out /\
    Forall (fun kv => sources (snd kv) = [source]) out /\
    (forall k, In k (Object_keys out) -> In k (map key items)).
Proof.
  intros Hr.
  set (byContext := List.filter (matchesContext ctx) items).
  set (byScope := List.filter (matchesScope scope) byContext).
  set (sorted := Js.sort compareKeys byScope).
  assert (Hperm : Permutation sorted byScope) by apply sort_perm.
  destruct (reduce_formatStep_total ctx source sorted []
              {| arrays := (arrays w ++ [byContext]) ++ [sorted]; calls := calls w |})
    as (out & Hrun & Hwf & Hsrc & Hkeys).
  - apply Forall_forall. intros it Hit.
    apply list_elem_of_In in Hit. apply (Permutation_in _ Hperm) in Hit.
    apply filter_In in Hit as [Hit _]. now apply filter_In in Hit as [_ Hit].
  - constructor.
  - constructor.
  - exists out, {| arrays := (arrays w ++ [byContext]) ++ [sorted]; calls := calls w |}.
    split; [|repeat split; auto].
    + unfold formatEnvelopeData, bind.
      rewrite (arr_filter_run _ _ _ _ Hr).
      erewrite arr_filter_run by (simpl; apply lookup_snoc).
      erewrite arr_sort_run by (simpl; apply lookup_snoc).
      erewrite arr_reduce_run by (simpl; rewrite insert_snoc; apply lookup_snoc).
      simpl. rewrite insert_snoc. exact Hrun.
    + simpl. rewrite !length_app. lia.
    + simpl. intros r' old Hold. now do 2 apply lookup_snoc_old.
    + intros k Hk. apply Hkeys in Hk as [[]|Hk].
      apply in_map_iff in Hk as (it & <- & Hit). apply in_map.
      apply (Permutation_in _ Hperm) in Hit.
      apply filter_In in Hit as [Hit _]. now apply filter_In in Hit as [Hit _].
Qed.

(** ** Facts on the source filter and on merging *)

Lemma filterEnvBySource_filter env source :
  obj_wf env ->
  filterEnvBySource env source =
  List.filter (fun kv => bool_decide (head (sources (snd kv)) = Some source)) env.
Proof.
  intros Hwf. unfold filterEnvBySource, Object_fromEntries, Object_entries.
  apply obj_spread_empty. now apply NoDup_map_filter.
Qed.

Lemma filterEnvBySource_In env source k v :
  obj_wf env ->
  In (k, v) (filterEnvBySource env source) <->
  In (k, v) env /\ head (sources v) = Some source.
Proof.
  intros Hwf. rewrite (filterEnvBySource_filter env source Hwf), filter_In. simpl.
  now rewrite bool_decide_eq_true.
Qed.

Lemma filterEnvBySource_get env source k v :
  obj_wf env ->
  obj_get k (filterEnvBySource env source) = Some v <->
  In (k, v) env /\ head (sources v) = Some source.
Proof.
  intros Hwf. rewrite <- (filterEnvBySource_In env source k v Hwf). split.
  - apply obj_get_In.
  - apply In_obj_get, wf_fromEntries.
Qed.

Lemma merge_keys {V} (srcs : list (Obj V)) (acc : Obj V) (k : string) :
  In k (Object_keys (fold_left obj_spread srcs acc)) <->
  In k (Object_keys acc) \/ exists src, In src srcs /\ In k (Object_keys src).
Proof.
  revert acc. induction srcs as [|s srcs IH]; intros acc; simpl.
  - split; [tauto|]. intros [H|(src & [] & _)]. exact H.
  - rewrite IH, keys_spread. split.
    + intros [[H|H]|(src & Hin & H)]; eauto.
    + intros [H|(src & [<-|Hin] & H)]; eauto.
Qed.

Lemma merge_get {V} (srcs : list (Obj V)) (acc : Obj V) (k : string) :
  Forall obj_wf srcs ->
  obj_get k (fold_left obj_spread srcs acc) =
  match lookup_by_precedence k srcs with
  | Some v => Some v
  | None => obj_get k acc
  end.
Proof.
  intros Hwf. revert acc.
  induction Hwf as [|s srcs Hs Hrest IH]; intros acc; simpl; [reflexivity|].
  rewrite IH. destruct (lookup_by_precedence k srcs); [reflexivity|].
  now apply obj_get_spread.
Qed.

Lemma getEnvelopeEnv_run api ctx env reqKey scope siteInfo accountId w :
  account_slug siteInfo = Some accountId ->
  exists accountItems siteItems accountEnv siteEnv w1 w2 w3 w4,
    fetchEnvelopeItems (account_slug siteInfo) api reqKey None w = (Ok accountItems, w1) /\
    fetchEnvelopeItems (account_slug siteInfo) api reqKey (id siteInfo) w1 = (Ok siteItems, w2) /\
    formatEnvelopeData ctx accountItems scope Account w2 = (Ok accountEnv, w3) /\
    formatEnvelopeData ctx siteItems scope Ui w3 = (Ok siteEnv, w4) /\
    getEnvelopeEnv api ctx env reqKey scope siteInfo w =
    (Ok (fold_left obj_spread (includedSources env scope accountEnv siteEnv) obj_empty), w4) /\
    calls w4 = calls w ++ [remoteCall accountId reqKey None; remoteCall accountId reqKey (id siteInfo)] /\
    obj_wf accountEnv /\ obj_wf siteEnv /\
    Forall (fun kv => sources (snd kv) = [Account]) accountEnv /\
    Forall (fun kv => sources (snd kv) = [Ui]) siteEnv /\
    (forall k, In k (Object_keys accountEnv) ->
               In k (map key (remoteItems api accountId reqKey None))) /\
    (forall k, In k (Object_keys siteEnv) ->
               In k (map key (remoteItems api accountId reqKey (id siteInfo)))).
Proof.
  intros Hacc.
  pose proof (fetchEnvelopeItems_run accountId api reqKey None w) as Hf1.
  set (w1 := {| arrays := arrays w ++ [remoteItems api accountId reqKey None];
                calls := calls w ++ [remoteCall accountId reqKey None] |}) in *.
  pose proof (fetchEnvelopeItems_run accountId api reqKey (id siteInfo) w1) as Hf2.
  set (w2 := {| arrays := arrays w1 ++ [remoteItems api accountId reqKey (id siteInfo)];
                calls := calls w1 ++ [remoteCall accountId reqKey (id siteInfo)] |}) in *.
  destruct (formatEnvelopeData_total ctx (length (arrays w)) scope Account
              (remoteItems api accountId reqKey None) w2)
    as (accountEnv & w3 & Hr3 & Hc3 & Hl3 & Hold3 & Hwf3 & Hs3 & Hk3).
  { simpl. apply lookup_snoc_old, lookup_snoc. }
  destruct (formatEnvelopeData_total ctx (length (arrays w1)) scope Ui
              (remoteItems api accountId reqKey (id siteInfo)) w3)
    as (siteEnv & w4 & Hr4 & Hc4 & Hl4 & Hold4 & Hwf4 & Hs4 & Hk4).
  { apply Hold3. simpl. apply lookup_snoc. }
  exists (ArrayRef (length (arrays w))), (ArrayRef (length (arrays w1))),
    accountEnv, siteEnv, w1, w2, w3, w4.
  rewrite Hacc. repeat split; auto.
  - unfold getEnvelopeEnv, bind. rewrite Hacc, Hf1, Hf2, Hr3, Hr4.
    unfold ret, includedSources. destruct (includeConfigEnvVars scope); reflexivity.
  - rewrite Hc4, Hc3. simpl. now rewrite <- app_assoc.
Qed.

Lemma wf_merge {V} (srcs : list (Obj V)) (acc : Obj V) :
  obj_wf acc -> obj_wf (fold_left obj_spread srcs acc).
Proof.
  revert acc. induction srcs as [|s srcs IH]; intros acc Hacc; simpl; [exact Hacc|].
  now apply IH, wf_spread.
Qed.

Lemma wf_unique {V} (o : Obj V) k v v' :
  obj_wf o -> In (k, v) o -> In (k, v') o -> v = v'.
Proof.
  intros Hwf H H'. apply (In_obj_get _ _ _ Hwf) in H, H'. congruence.
Qed.

Lemma includedSources_wf env scope accountEnv siteEnv :
  obj_wf accountEnv -> obj_wf siteEnv ->
  Forall obj_wf (includedSources env scope accountEnv siteEnv).
Proof.
  intros Ha Hs. unfold includedSources.
  destruct (includeConfigEnvVars scope); simpl;
    repeat constructor; auto; apply wf_fromEntries.
Qed.

Lemma sources_of_get source (o : Obj EnvVariable) k u :
  Forall (fun kv => sources (snd kv) = [source]) o ->
  obj_get k o = Some u -> sources u = [source].
Proof.
  intros Hall Hg. apply obj_get_In in Hg. rewrite Forall_forall in Hall.
  apply (Hall (k, u)). now apply list_elem_of_In.
Qed.

(** ** The Env Resolver *)

(** C1. Whatever the client, context, legacy env, key, scope and site info:
    a call of [getEnvelopeEnv] faults only when the site has no account
    identifier, and a mapping that it returns is the merge, in ascending
    precedence, of general, account, addons (if included), site/UI and
    configFile (if included): its keys are the union of the keys of the
    included sources, and for each key it holds the whole entry of the
    highest source that has the key. *)
Theorem getEnvelopeEnv_merges_by_precedence api ctx env reqKey scope siteInfo w :
  match getEnvelopeEnv api ctx env reqKey scope siteInfo w with
  | (Throw _, _) => account_slug siteInfo = None
  | (Ok result, _) =>
      exists accountItems siteItems accountEnv siteEnv w1 w2 w3 w4,
        fetchEnvelopeItems (account_slug siteInfo) api reqKey None w
          = (Ok accountItems, w1) /\
        fetchEnvelopeItems (account_slug siteInfo) api reqKey (id siteInfo) w1
          = (Ok siteItems, w2) /\
        formatEnvelopeData ctx accountItems scope Account w2 = (Ok accountEnv, w3) /\
        formatEnvelopeData ctx siteItems scope Ui w3 = (Ok siteEnv, w4) /\
        (forall k,
            In k (Object_keys result) <->
            exists src,
              In src (includedSources env scope accountEnv siteEnv) /\
              In k (Object_keys src)) /\
        (forall k,
            obj_get k result =
            lookup_by_precedence k (includedSources env scope accountEnv siteEnv))
  end.
Proof.
  destruct (account_slug siteInfo) as [accountId|] eqn:Hacc.
  - destruct (getEnvelopeEnv_run api ctx env reqKey scope siteInfo accountId w Hacc)
      as (ai & si & accountEnv & siteEnv & w1 & w2 & w3 & w4
          & Hf1 & Hf2 & Hr3 & Hr4 & Hrun & _ & Hwa & Hws & _).
    rewrite Hrun. rewrite Hacc in Hf1, Hf2.
    exists ai, si, accountEnv, siteEnv, w1, w2, w3, w4.
    repeat split; auto.
    + intros Hk. apply merge_keys in Hk as [[]|Hk]. exact Hk.
    + intros Hk. apply merge_keys. now right.
    + intros k. rewrite merge_get by now apply includedSources_wf.
      now destruct (lookup_by_precedence k _).
  - unfold getEnvelopeEnv, bind. rewrite Hacc. reflexivity.
Qed.

(** The precedence example of the specification: general [A:1], account
    [A:2], site [A:3], all scopes included. *)
Example getEnvelopeEnv_precedence_example :
  fst (getEnvelopeEnv Sample.api Dev Sample.env "" Any Sample.site Sample.emptyWorld)
  = Ok [ ("A", {| var_context := Some Dev;
                  var_scopes := Some [Builds; Functions];
                  sources := [Ui];
                  var_value := "3" |});
         ("ADDON_URL", Sample.legacyEntry Addons "addon");
         ("FROM_TOML", Sample.legacyEntry ConfigFile "toml") ].
Proof. reflexivity. Qed.

(** With an account the resolver returns, and the scope decides whether
    the addons and configFile entries take part in the merge. *)
Lemma resolver_scope_gate
    api ctx env reqKey scope siteInfo accountId w :
  obj_wf env ->
  account_slug siteInfo = Some accountId ->
  exists result w',
    getEnvelopeEnv api ctx env reqKey scope siteInfo w = (Ok result, w') /\
    (In scope [Any; Builds; PostProcessing] ->
     forall k v, In (k, v) env ->
       (head (sources v) = Some ConfigFile -> obj_get k result = Some v) /\
       (head (sources v) = Some Addons ->
        obj_get k result = Some v \/
        exists u, obj_get k result = Some u /\ sources u = [Ui])) /\
    (~ In scope [Any; Builds; PostProcessing] ->
     forall k v, In (k, v) result ->
       head (sources v) <> Some Addons /\ head (sources v) <> Some ConfigFile).
Proof.
  intros Hwf Hacc.
  destruct (getEnvelopeEnv_run api ctx env reqKey scope siteInfo accountId w Hacc)
    as (ai & si & accountEnv & siteEnv & w1 & w2 & w3 & w4
        & _ & _ & _ & _ & Hrun & _ & Hwa & Hws & Hsa & Hss & _).
  eexists _, w4. split; [exact Hrun|].
  assert (Hget : forall k,
    obj_get k (fold_left obj_spread (includedSources env scope accountEnv siteEnv) obj_empty)
    = lookup_by_precedence k (includedSources env scope accountEnv siteEnv)).
  { intros k. rewrite merge_get by now apply includedSources_wf.
    now destruct (lookup_by_precedence k _). }
  split.
  - intros Hscope k v Hin. apply includes_In in Hscope.
    rewrite Hget. unfold includedSources.
    change (Js.includes [Any; Builds; PostProcessing] scope)
      with (includeConfigEnvVars scope) in Hscope.
    rewrite Hscope. simpl. split.
    + intros Hv.
      now rewrite (proj2 (filterEnvBySource_get env ConfigFile k v Hwf) (conj Hin Hv)).
    + intros Hv.
      destruct (obj_get k (filterEnvBySource env ConfigFile)) as [v'|] eqn:Hc.
      { apply filterEnvBySource_get in Hc as [Hin' Hv']; [|exact Hwf].
        rewrite (wf_unique env k v v' Hwf Hin Hin') in Hv. congruence. }
      destruct (obj_get k siteEnv) as [u|] eqn:Hs.
      { right. exists u. split; [reflexivity|]. eapply sources_of_get; eauto. }
      left.
      now rewrite (proj2 (filterEnvBySource_get env Addons k v Hwf) (conj Hin Hv)).
  - intros Hscope k v Hin.
    assert (Hoff : includeConfigEnvVars scope = false).
    { destruct (includeConfigEnvVars scope) eqn:E; [|reflexivity].
      apply includes_In in E. tauto. }
    apply In_obj_get in Hin; [|apply wf_merge; constructor].
    rewrite Hget in Hin. unfold includedSources in Hin. rewrite Hoff in Hin.
    simpl in Hin.
    destruct (obj_get k siteEnv) as [u|] eqn:Hs.
    { injection Hin as <-. rewrite (sources_of_get Ui siteEnv k u Hss Hs).
      simpl. split; congruence. }
    destruct (obj_get k accountEnv) as [u|] eqn:Ha.
    { injection Hin as <-. rewrite (sources_of_get Account accountEnv k u Hsa Ha).
      simpl. split; congruence. }
    apply filterEnvBySource_get in Hin as [_ Hv]; [|exact Hwf].
    rewrite Hv. split; congruence.
Qed.

(** C2. For every legacy env and site info: a call of [getEnvelopeEnv]
    faults only when the site has no account identifier, and in a mapping
    that it returns the addons-sourced and configFile-sourced entries take
    part exactly when the requested scope is [any], [builds] or
    [post_processing]: then every configFile entry of the env is in the
    result and so is every addons entry that no site-level entry of the
    same name overrides; for any other scope ([functions], [runtime]) no
    entry of the result has [addons] or [configFile] as its first source. *)
Theorem getEnvelopeEnv_config_sources_by_scope api ctx env reqKey scope siteInfo w :
  obj_wf env ->
  match getEnvelopeEnv api ctx env reqKey scope siteInfo w with
  | (Throw _, _) => account_slug siteInfo = None
  | (Ok result, _) =>
      (In scope [Any; Builds; PostProcessing] ->
       forall k v, In (k, v) env ->
         (head (sources v) = Some ConfigFile -> obj_get k result = Some v) /\
         (head (sources v) = Some Addons ->
          obj_get k result = Some v \/
          exists u, obj_get k result = Some u /\ sources u = [Ui])) /\
      (~ In scope [Any; Builds; PostProcessing] ->
       forall k v, In (k, v) result ->
         head (sources v) <> Some Addons /\ head (sources v) <> Some ConfigFile)
  end.
Proof.
  intros Hwf. destruct (account_slug siteInfo) as [accountId|] eqn:Hacc.
  - destruct (resolver_scope_gate api ctx env reqKey scope siteInfo accountId w
                Hwf Hacc) as (result & w' & Hrun & Hon & Hoff).
    rewrite Hrun. now split.
  - unfold getEnvelopeEnv, bind. rewrite Hacc. reflexivity.
Qed.

Lemma getEnvelopeEnv_config_sources_by_scope_witness :
  exists result w',
    getEnvelopeEnv Sample.api Dev Sample.env "" Functions Sample.site Sample.emptyWorld
      = (Ok result, w') /\
    forall k v, In (k, v) result ->
      head (sources v) <> Some Addons /\ head (sources v) <> Some ConfigFile.
Proof.
  pose proof (getEnvelopeEnv_config_sources_by_scope
                Sample.api Dev Sample.env "" Functions Sample.site Sample.emptyWorld)
    as Hgate.
  destruct (getEnvelopeEnv Sample.api Dev Sample.env "" Functions Sample.site
              Sample.emptyWorld) as [[result|e] w'].
  - exists result, w'. split; [reflexivity|].
    apply Hgate; [solve_wf|]. simpl. intuition discriminate.
  - discriminate Hgate. solve_wf.
Defined.

(** C9. When the site info has no account identifier, both fetches return
    the empty object [{}] and not an array, formatting it is a type fault,
    and the fault is the outcome of [getEnvelopeEnv]: no mapping is
    returned, whatever the legacy env holds. *)
Theorem getEnvelopeEnv_without_account_faults api ctx env reqKey scope siteInfo w :
  account_slug siteInfo = None ->
  fetchEnvelopeItems (account_slug siteInfo) api reqKey None w = (Ok EmptyObject, w) /\
  fetchEnvelopeItems (account_slug siteInfo) api reqKey (id siteInfo) w
    = (Ok EmptyObject, w) /\
  (forall source,
      formatEnvelopeData ctx EmptyObject scope source w = (Throw TypeError, w)) /\
  getEnvelopeEnv api ctx env reqKey scope siteInfo w = (Throw TypeError, w).
Proof.
  intros Hacc. unfold getEnvelopeEnv, bind. rewrite Hacc. repeat split.
Qed.

Lemma getEnvelopeEnv_without_account_faults_witness :
  getEnvelopeEnv Sample.api Dev Sample.env "" Any Sample.anonymousSite Sample.emptyWorld
  = (Throw TypeError, Sample.emptyWorld).
Proof.
  apply (getEnvelopeEnv_without_account_faults
           Sample.api Dev Sample.env "" Any Sample.anonymousSite Sample.emptyWorld).
  reflexivity.
Defined.

(** With an account and a single key, the client is asked for that key and
    the local entries are merged whatever their name. *)
Lemma resolver_single_key
    api ctx env reqKey scope siteInfo accountId w :
  reqKey <> "" ->
  obj_wf env ->
  account_slug siteInfo = Some accountId ->
  exists result w',
    getEnvelopeEnv api ctx env reqKey scope siteInfo w = (Ok result, w') /\
    calls w' = calls w ++ [CallGetEnvVar accountId reqKey None;
                           CallGetEnvVar accountId reqKey (id siteInfo)] /\
    forall k v, In (k, v) env ->
      (head (sources v) = Some General ->
       obj_get k result = Some v \/
       (In k (map key (remoteItems api accountId reqKey None ++
                       remoteItems api accountId reqKey (id siteInfo))) /\
        exists u, obj_get k result = Some u /\
                  (sources u = [Account] \/ sources u = [Ui]))) /\
      (includeConfigEnvVars scope = true ->
       head (sources v) = Some Addons ->
       obj_get k result = Some v \/
       (In k (map key (remoteItems api accountId reqKey (id siteInfo))) /\
        exists u, obj_get k result = Some u /\ sources u = [Ui])) /\
      (includeConfigEnvVars scope = true ->
       head (sources v) = Some ConfigFile ->
       obj_get k result = Some v).
Proof.
  intros Hkey Hwf Hacc.
  destruct (getEnvelopeEnv_run api ctx env reqKey scope siteInfo accountId w Hacc)
    as (ai & si & accountEnv & siteEnv & w1 & w2 & w3 & w4
        & _ & _ & _ & _ & Hrun & Hcalls & Hwa & Hws & Hsa & Hss & Hka & Hks).
  eexists _, w4. split; [exact Hrun|]. split.
  { rewrite Hcalls. unfold remoteCall.
    destruct reqKey; [congruence|reflexivity]. }
  assert (Hget : forall k,
    obj_get k (fold_left obj_spread (includedSources env scope accountEnv siteEnv) obj_empty)
    = lookup_by_precedence k (includedSources env scope accountEnv siteEnv)).
  { intros k. rewrite merge_get by now apply includedSources_wf.
    now destruct (lookup_by_precedence k _). }
  assert (Hother : forall s s' k v, In (k, v) env -> head (sources v) = Some s ->
                                    s <> s' -> obj_get k (filterEnvBySource env s') = None).
  { intros s s' k v Hin Hv Hne.
    destruct (obj_get k (filterEnvBySource env s')) as [v'|] eqn:Hc; [|reflexivity].
    apply filterEnvBySource_get in Hc as [Hin' Hv']; [|exact Hwf].
    rewrite (wf_unique env k v v' Hwf Hin Hin') in Hv. congruence. }
  assert (Hsite : forall k u, obj_get k siteEnv = Some u ->
    In k (map key (remoteItems api accountId reqKey (id siteInfo))) /\ sources u = [Ui]).
  { intros k u Hs. split; [|eapply sources_of_get; eauto].
    apply Hks. eapply In_keys, obj_get_In, Hs. }
  assert (Hacct : forall k u, obj_get k accountEnv = Some u ->
    In k (map key (remoteItems api accountId reqKey None)) /\ sources u = [Account]).
  { intros k u Hs. split; [|eapply sources_of_get; eauto].
    apply Hka. eapply In_keys, obj_get_In, Hs. }
  intros k v Hin. rewrite Hget. unfold includedSources. repeat split.
  - intros Hv.
    assert (Hg : obj_get k (filterEnvBySource env General) = Some v)
      by (apply filterEnvBySource_get; auto).
    assert (Hc : obj_get k (filterEnvBySource env ConfigFile) = None)
      by (apply (Hother General ConfigFile k v); auto; discriminate).
    assert (Hd : obj_get k (filterEnvBySource env Addons) = None)
      by (apply (Hother General Addons k v); auto; discriminate).
    rewrite map_app, in_app_iff.
    destruct (includeConfigEnvVars scope); simpl; rewrite ?Hc, ?Hd, Hg;
      destruct (obj_get k siteEnv) as [u|] eqn:Hs;
      try (destruct (Hsite k u Hs); right; split; [tauto|eauto]);
      destruct (obj_get k accountEnv) as [u'|] eqn:Ha;
      try (destruct (Hacct k u' Ha); right; split; [tauto|eauto]);
      now left.
  - intros Hon Hv. rewrite Hon. simpl.
    rewrite (Hother Addons ConfigFile k v) by (auto; discriminate).
    destruct (obj_get k siteEnv) as [u|] eqn:Hs.
    + destruct (Hsite k u Hs). right. eauto.
    + left. now rewrite (proj2 (filterEnvBySource_get env Addons k v Hwf) (conj Hin Hv)).
  - intros Hon Hv. rewrite Hon. simpl.
    now rewrite (proj2 (filterEnvBySource_get env ConfigFile k v Hwf) (conj Hin Hv)).
Qed.

(** C10. For every call of [getEnvelopeEnv] with a
    non-empty single key: the call faults only when the site has no account
    identifier; otherwise the client is asked for that key only (once for
    the account, once for the site), and the entries of the legacy env are
    merged whatever their name: a [general] entry is returned unless a
    fetched record of the same name overrides it, and, when the scope is
    [any], [builds] or [post_processing], an [addons] entry is returned
    unless a fetched site-level record of the same name overrides it and a
    [configFile] entry is always returned. *)
Theorem getEnvelopeEnv_single_key_keeps_local api ctx env reqKey scope siteInfo w :
  reqKey <> "" ->
  obj_wf env ->
  match getEnvelopeEnv api ctx env reqKey scope siteInfo w with
  | (Throw _, _) => account_slug siteInfo = None
  | (Ok result, w') =>
      exists accountId,
        account_slug siteInfo = Some accountId /\
        calls w' = calls w ++ [CallGetEnvVar accountId reqKey None;
                               CallGetEnvVar accountId reqKey (id siteInfo)] /\
        forall k v, In (k, v) env ->
          (head (sources v) = Some General ->
           obj_get k result = Some v \/
           (In k (map key (remoteItems api accountId reqKey None ++
                           remoteItems api accountId reqKey (id siteInfo))) /\
            exists u, obj_get k result = Some u /\
                      (sources u = [Account] \/ sources u = [Ui]))) /\
          (includeConfigEnvVars scope = true ->
           head (sources v) = Some Addons ->
           obj_get k result = Some v \/
           (In k (map key (remoteItems api accountId reqKey (id siteInfo))) /\
            exists u, obj_get k result = Some u /\ sources u = [Ui])) /\
          (includeConfigEnvVars scope = true ->
           head (sources v) = Some ConfigFile ->
           obj_get k result = Some v)
  end.
Proof.
  intros Hkey Hwf. destruct (account_slug siteInfo) as [accountId|] eqn:Hacc.
  - destruct (resolver_single_key api ctx env reqKey scope siteInfo accountId w
                Hkey Hwf Hacc) as (result & w' & Hrun & Hcalls & Hlocal).
    rewrite Hrun. now exists accountId.
  - unfold getEnvelopeEnv, bind. rewrite Hacc. reflexivity.
Qed.

Lemma getEnvelopeEnv_single_key_keeps_local_witness :
  exists result w',
    getEnvelopeEnv Sample.api Dev Sample.env "A" Any Sample.site Sample.emptyWorld
      = (Ok result, w') /\
    obj_get "FROM_TOML" result = Some (Sample.legacyEntry ConfigFile "toml").
Proof.
  pose proof (getEnvelopeEnv_single_key_keeps_local
                Sample.api Dev Sample.env "A" Any Sample.site Sample.emptyWorld)
    as Hlocal.
  destruct (getEnvelopeEnv Sample.api Dev Sample.env "A" Any Sample.site
              Sample.emptyWorld) as [[result|e] w'].
  - exists result, w'. split; [reflexivity|].
    destruct Hlocal as (accountId & _ & _ & Hlocal); [discriminate|solve_wf|].
    apply (Hlocal "FROM_TOML" (Sample.legacyEntry ConfigFile "toml")).
    + simpl. tauto.
    + reflexivity.
    + reflexivity.
  - discriminate Hlocal; [discriminate|solve_wf].
Defined.

(** With scope [functions] and the single key [A], the addons and
    configFile entries of the legacy env are absent from the result. *)
Lemma getEnvelopeEnv_single_key_functions_scope_drops_config :
  In ("ADDON_URL", Sample.legacyEntry Addons "addon") Sample.env /\
  In ("FROM_TOML", Sample.legacyEntry ConfigFile "toml") Sample.env /\
  exists result,
    fst (getEnvelopeEnv Sample.api Dev Sample.env "A" Functions Sample.site
           Sample.emptyWorld) = Ok result /\
    Object_keys result = ["A"] /\
    ~ In "ADDON_URL" (Object_keys result) /\
    ~ In "FROM_TOML" (Object_keys result).
Proof.
  split; [simpl; tauto|]. split; [simpl; tauto|].
  eexists. split; [reflexivity|]. simpl. intuition discriminate.
Qed.

(** ** The Remote Fetcher *)

(** C3. Without an account identifier [fetchEnvelopeItems] returns an empty
    result at once and the client is not invoked (the call log is
    unchanged). With an account, when the client call that the fetch makes
    ([getEnvVar] for a key, [getEnvVars] otherwise) fails, the fetch does
    not fault: it returns a fresh empty array, and for the list call its
    outcome is the very outcome of a fetch whose client returns the empty
    list. *)
Theorem fetchEnvelopeItems_degrades_to_empty api reqKey siteId w :
  fetchEnvelopeItems None api reqKey siteId w = (Ok EmptyObject, w) /\
  forall accountId,
    clientFails api accountId reqKey siteId ->
    exists r w',
      fetchEnvelopeItems (Some accountId) api reqKey siteId w = (Ok (ArrayRef r), w') /\
      arrays w !! r = None /\
      arrays w' !! r = Some [] /\
      calls w' = calls w ++ [remoteCall accountId reqKey siteId] /\
      forall api',
        reqKey = "" ->
        getEnvVars api' accountId siteId = Some [] ->
        fetchEnvelopeItems (Some accountId) api' reqKey siteId w
        = (Ok (ArrayRef r), w').
Proof.
  split; [reflexivity|]. intros accountId Hfail.
  assert (Hitems : remoteItems api accountId reqKey siteId = []).
  { unfold clientFails in Hfail. unfold remoteItems.
    destruct (Js.truthy reqKey); now rewrite Hfail. }
  eexists _, _. split; [apply fetchEnvelopeItems_run|]. cbn [arrays calls].
  rewrite Hitems. repeat split.
  - apply lookup_ge_None. lia.
  - apply lookup_snoc.
  - intros api' -> Hempty. rewrite fetchEnvelopeItems_run.
    unfold remoteItems. simpl. now rewrite Hempty.
Qed.

Lemma fetchEnvelopeItems_degrades_to_empty_witness :
  fetchEnvelopeItems None Sample.deniedApi "" (Some "site-1") Sample.emptyWorld
    = (Ok EmptyObject, Sample.emptyWorld) /\
  exists r w',
    fetchEnvelopeItems (Some "acme") Sample.deniedApi "" (Some "site-1") Sample.emptyWorld
      = (Ok (ArrayRef r), w') /\
    arrays w' !! r = Some [].
Proof.
  destruct (fetchEnvelopeItems_degrades_to_empty
              Sample.deniedApi "" (Some "site-1") Sample.emptyWorld)
    as (Hnone & Hfail).
  split; [exact Hnone|].
  destruct (Hfail "acme") as (r & w' & Hrun & _ & Hempty & _); [reflexivity|].
  exists r, w'. split; [exact Hrun|exact Hempty].
Defined.

(** ** The Context/Scope Formatter *)

Lemma emitted_keys ctx source recs out :
  Forall2 (emitted ctx source) recs out -> Object_keys out = map key recs.
Proof.
  induction 1 as [|it kv recs out [Hk _] _ IH]; simpl; [reflexivity|].
  now rewrite Hk, IH.
Qed.





(** The sorting example of the specification: keys [banana], [Apple] come
    out as [Apple], [banana]. *)
Example formatEnvelopeData_sorting_example :
  fst (formatEnvelopeData Dev (ArrayRef 0) Any Ui Sample.fruitWorld)
  = Ok [ ("Apple", {| var_context := Some Dev; var_scopes := Some [Builds];
                      sources := [Ui]; var_value := "red" |});
         ("banana", {| var_context := Some All; var_scopes := Some [Builds];
                       sources := [Ui]; var_value := "yellow" |}) ].
Proof. reflexivity. Qed.

(** ** The Shape Translator *)

Lemma truthy_ne (s : string) : Js.truthy s = true <-> s <> "".
Proof. destruct s; simpl; split; congruence. Qed.

Lemma mongoEntries_In items k v :
  In (k, v) (mongoEntries items) <->
  exists it found,
    In it items /\ key it = k /\
    first_match [Dev; All] (values it) found /\ value found = v /\ v <> "".
Proof.
  unfold mongoEntries. rewrite in_flat_map. split.
  - intros (it & Hit & Hin).
    destruct (List.find _ (values it)) as [envVar|] eqn:Hf; [|destruct Hin].
    destruct (Js.truthy (value envVar)) eqn:Ht; [|destruct Hin].
    destruct Hin as [[= <- <-]|[]]. exists it, envVar.
    repeat split; [exact Hit|now apply find_first_match|now apply truthy_ne].
  - intros (it & found & Hit & <- & Hm & <- & Hv). exists it. split; [exact Hit|].
    apply find_first_match in Hm. rewrite Hm.
    apply truthy_ne in Hv. rewrite Hv. now left.
Qed.

Lemma mongoEntries_keys items :
  Object_keys (mongoEntries items) = map key (List.filter emitsMongo items).
Proof.
  induction items as [|cur items IH]; simpl; [reflexivity|].
  unfold Object_keys in *. rewrite map_app, IH. unfold emitsMongo at 2.
  destruct (List.find _ (values cur)) as [envVar|]; [|reflexivity].
  now destruct (Js.truthy (value envVar)).
Qed.

Lemma mongoEntries_wf items :
  List.NoDup (map key items) -> obj_wf (mongoEntries items).
Proof.
  intros Hnd. unfold obj_wf. rewrite mongoEntries_keys. now apply NoDup_map_filter.
Qed.




Lemma mongoEntries_of_flat (env : Obj string) :
  Forall (fun kv => snd kv <> "") env ->
  mongoEntries
    (map (fun kv => {| key := fst kv;
                       scopes := [Builds; Functions; Runtime; PostProcessing];
                       values := [ {| context := All; value := snd kv |} ] |}) env)
  = env.
Proof.
  induction 1 as [|[k v] env Hv _ IH]; simpl; [reflexivity|].
  simpl in Hv. apply truthy_ne in Hv. rewrite Hv. simpl. now f_equal.
Qed.

(** C5. For a flat env (an object, so with distinct keys) whose values are
    all truthy strings, translating to the multi-context shape and back
    returns the same dictionary: the same entries, hence the same value
    under every key. (The round trip lists the keys in case-insensitive
    order.) *)
Theorem mongo_round_trip_is_lossless env w :
  obj_wf env ->
  Forall (fun kv => snd kv <> "") env ->
  exists out w',
    mongoRoundTrip env w = (Ok out, w') /\
    obj_wf out /\
    Permutation out env /\
    (forall k, obj_get k out = obj_get k env).
Proof.
  intros Hwf Htruthy.
  set (records := map (fun kv => {| key := fst kv;
                         scopes := [Builds; Functions; Runtime; PostProcessing];
                         values := [ {| context := All; value := snd kv |} ] |}) env).
  assert (Hkeys : map key records = Object_keys env).
  { unfold records, Object_keys. rewrite map_map. reflexivity. }
  assert (Hnd : List.NoDup (map key records)) by now rewrite Hkeys.
  pose proof (sort_perm compareKeys records) as Hperm.
  assert (Hout : Permutation (mongoEntries (Js.sort compareKeys records)) env).
  { transitivity (mongoEntries records).
    - apply Permutation_flat_map, Hperm.
    - unfold records. now rewrite (mongoEntries_of_flat env Htruthy). }
  assert (Hwf' : obj_wf (mongoEntries (Js.sort compareKeys records))).
  { apply mongoEntries_wf.
    apply (Permutation_NoDup (Permutation_map key (Permutation_sym Hperm)) Hnd). }
  eexists _, _. split; [|split; [exact Hwf'|split; [exact Hout|]]].
  - unfold mongoRoundTrip, bind, translateFromMongoToEnvelope, arr_new, Object_entries.
    fold records.
    apply (translateFromEnvelopeToMongo_run _ records); [|exact Hnd].
    simpl. apply lookup_snoc.
  - intros k. destruct (obj_get k env) as [v|] eqn:Hg.
    + apply In_obj_get; [exact Hwf'|].
      apply (Permutation_in _ (Permutation_sym Hout)). now apply obj_get_In.
    + apply obj_get_None. apply obj_get_None in Hg. intros Hin. apply Hg.
      apply (Permutation_in _ (Permutation_map fst Hout) Hin).
Qed.

(** The round-trip example of the specification, [{FOO: 'bar'}]. *)
Lemma mongo_round_trip_is_lossless_witness :
  exists out w',
    mongoRoundTrip [("FOO", "bar")] Sample.emptyWorld = (Ok out, w') /\
    obj_wf out /\
    Permutation out [("FOO", "bar")] /\
    (forall k, obj_get k out = obj_get k [("FOO", "bar")]).
Proof.
  apply (mongo_round_trip_is_lossless [("FOO", "bar")] Sample.emptyWorld).
  - solve_wf.
  - repeat constructor. simpl. discriminate.
Defined.

Example mongo_round_trip_example :
  fst (mongoRoundTrip [("FOO", "bar")] Sample.emptyWorld) = Ok [("FOO", "bar")].
Proof. reflexivity. Qed.

(** ** Arguments and the store *)

(** The formatter sorts a copy: every array that exists before the call
    holds the same records after it. *)
Lemma formatEnvelopeData_leaves_arrays ctx r scope source items w :
  arrays w !! r = Some items ->
  exists out w',
    formatEnvelopeData ctx (ArrayRef r) scope source w = (Ok out, w') /\
    forall r' old, arrays w !! r' = Some old -> arrays w' !! r' = Some old.
Proof.
  intros Hr.
  destruct (formatEnvelopeData_total ctx r scope source items w Hr)
    as (out & w' & Hrun & _ & _ & Hold & _).
  now exists out, w'.
Qed.

(** The translator sorts the array that it is given. *)
Lemma translateFromEnvelopeToMongo_store r items w :
  arrays w !! r = Some items ->
  List.NoDup (map key items) ->
  arrays (snd (translateFromEnvelopeToMongo r w)) !! r
  = Some (Js.sort compareKeys items).
Proof.
  intros Hr Hnd. rewrite (translateFromEnvelopeToMongo_run r items w Hr Hnd). simpl.
  apply list_lookup_insert_eq. eapply lookup_lt_Some, Hr.
Qed.

(** C7. [translateFromEnvelopeToMongo] does not leave its argument as it
    was: called on the array [banana, Apple], it returns the flat env and
    leaves the caller's array sorted, as [Apple, banana]. *)
Theorem translateFromEnvelopeToMongo_reorders_its_argument :
  arrays Sample.fruitWorld !! 0
  = Some [ Sample.record "banana" [Builds] All "yellow";
           Sample.record "Apple" [Builds] Dev "red" ] /\
  translateFromEnvelopeToMongo 0 Sample.fruitWorld
  = (Ok [("Apple", "red"); ("banana", "yellow")],
     {| arrays := [ [ Sample.record "Apple" [Builds] Dev "red";
                      Sample.record "banana" [Builds] All "yellow" ] ];
        calls := [] |}).
Proof. split; reflexivity. Qed.

(** ** The Source Filter *)

(** C8. [filterEnvBySource env s] is exactly the
    entries of [env] whose first source is [s], in the order of [env]; and
    when every entry has a single source, each entry of [env] is in the
    result for exactly one of the five source tags general, account,
    addons, ui, configFile. *)
Theorem filterEnvBySource_partitions_by_source env :
  obj_wf env ->
  (forall s,
      filterEnvBySource env s =
      List.filter (fun kv => bool_decide (head (sources (snd kv)) = Some s)) env) /\
  (forall s k v,
      In (k, v) (filterEnvBySource env s) <->
      In (k, v) env /\ head (sources v) = Some s) /\
  ((forall k v, In (k, v) env -> exists t, sources v = [t]) ->
   forall k v, In (k, v) env ->
     exists s,
       In s all_sources /\
       In (k, v) (filterEnvBySource env s) /\
       forall s', In (k, v) (filterEnvBySource env s') -> s' = s).
Proof.
  intros Hwf. split; [|split].
  - intros s. now apply filterEnvBySource_filter.
  - intros s k v. now apply filterEnvBySource_In.
  - intros Hsingle k v Hin. destruct (Hsingle k v Hin) as [t Ht].
    exists t. split; [|split].
    + destruct t; simpl; tauto.
    + apply filterEnvBySource_In; [exact Hwf|]. now rewrite Ht.
    + intros s' Hs'. apply filterEnvBySource_In in Hs' as [_ Hs']; [|exact Hwf].
      rewrite Ht in Hs'. simpl in Hs'. congruence.
Qed.

Lemma filterEnvBySource_partitions_by_source_witness :
  filterEnvBySource Sample.env Addons = [("ADDON_URL", Sample.legacyEntry Addons "addon")] /\
  exists s,
    In s all_sources /\
    In ("A", Sample.legacyEntry General "1") (filterEnvBySource Sample.env s) /\
    forall s', In ("A", Sample.legacyEntry General "1") (filterEnvBySource Sample.env s')
               -> s' = s.
Proof.
  destruct (filterEnvBySource_partitions_by_source Sample.env) as (Heq & _ & Hpart);
    [solve_wf|].
  split; [rewrite Heq; reflexivity|].
  apply Hpart.
  - intros k v Hin. simpl in Hin.
    destruct Hin as [[= <- <-]|[[= <- <-]|[[= <- <-]|[]]]]; eexists; reflexivity.
  - simpl. tauto.
Defined.

(** No four source tags cover an env that has an entry of each of the five
    sources, so the union over four tags is not a partition of it. *)
Lemma four_source_tags_do_not_cover :
  obj_wf Sample.envOfEachSource /\
  (forall k v, In (k, v) Sample.envOfEachSource -> exists t, sources v = [t]) /\
  ~ exists t1 t2 t3 t4,
      forall k v, In (k, v) Sample.envOfEachSource ->
        exists s, In s [t1; t2; t3; t4] /\
                  In (k, v) (filterEnvBySource Sample.envOfEachSource s).
Proof.
  assert (Hwf : obj_wf Sample.envOfEachSource) by solve_wf.
  split; [exact Hwf|]. split.
  - intros k v Hin. simpl in Hin.
    repeat (destruct Hin as [[= <- <-]|Hin]; [eexists; reflexivity|]). destruct Hin.
  - intros (t1 & t2 & t3 & t4 & Hcover).
    assert (Hincl : incl all_sources [t1; t2; t3; t4]).
    { intros s0 Hs0.
      assert (Hentry : exists k v,
                 In (k, Sample.legacyEntry s0 v) Sample.envOfEachSource).
      { destruct s0; simpl; eauto 10. }
      destruct Hentry as (k & v & Hin).
      destruct (Hcover _ _ Hin) as (s & Hs & Hf).
      apply filterEnvBySource_In in Hf as [_ Hhead]; [|exact Hwf].
      simpl in Hhead. now injection Hhead as <-. }
    apply List.NoDup_incl_length in Hincl; [simpl in Hincl; lia|].
    unfold all_sources. repeat constructor; simpl; intuition discriminate.
Qed.

(** ** The Context Matcher *)

(** X1. [findValueFromContext] returns the first value entry whose context
    is the requested one or [all], with no priority between the two, and
    nothing exactly when no entry has either context. *)
Theorem findValueFromContext_first_of_context_or_all values ctx :
  (forall found,
      findValueFromContext values ctx = Some found <->
      first_match [ctx; All] values found) /\
  (findValueFromContext values ctx = None <->
   Forall (fun v => context v <> ctx /\ context v <> All) values).
Proof.
  split.
  - intros found. apply find_first_match.
  - unfold findValueFromContext. rewrite find_no_match. split.
    + intros H. eapply Forall_impl; [exact H|]. simpl. intros v Hv.
      split; intros Heq; apply Hv; auto.
    + intros H. eapply Forall_impl; [exact H|]. simpl.
      intros v [H1 H2] [Hv|[Hv|[]]]; congruence.
Qed.

(** ** The Scope Classifier *)

Lemma append_empty_r (s : string) : (s ++ "")%string = s.
Proof.
  induction s as [|c s IH]; [reflexivity|].
  change (String c (s ++ "")%string = String c s). now rewrite IH.
Qed.

Lemma append_inv_head (s a b : string) : (s ++ a)%string = (s ++ b)%string -> a = b.
Proof.
  induction s as [|c s IH]; [auto|].
  change (String c (s ++ a)%string = String c (s ++ b)%string -> a = b).
  intros [= H]. auto.
Qed.

Lemma join_cons sep x rest :
  join sep (x :: rest) =
  (default "" x ++ match rest with [] => "" | _ :: _ => sep ++ join sep rest end)%string.
Proof.
  destruct rest; [|reflexivity].
  cbn [join]. now rewrite append_empty_r.
Qed.

Lemma join_labels_not_All (scopes : list Scope) :
  join ", " (map scopeLabel scopes) <> "All".
Proof.
  destruct scopes as [|a [|b rest]]; [discriminate| |];
    destruct a; simpl; discriminate.
Qed.

(** X2. The label is ["All"] exactly when [scopes] is present and has four
    elements, whichever they are (the shorthand looks at the length only);
    no other input is labelled ["All"]. *)
Theorem getHumanReadableScopes_All_iff_four scopes :
  getHumanReadableScopes scopes = "All" <->
  exists l, scopes = Some l /\ length l = 4.
Proof.
  unfold getHumanReadableScopes. destruct scopes as [l|].
  - simpl. destruct (Nat.eqb_spec (length l) 4) as [Hl|Hl].
    + split; [eauto|reflexivity].
    + split.
      * intros H. now apply join_labels_not_All in H.
      * intros (l' & [= <-] & Hl'). contradiction.
  - split; [discriminate|]. intros (l & Hl & _). discriminate.
Qed.

Lemma join_labels_inj (l1 l2 : list Scope) :
  Forall (fun s => s <> Any) l1 ->
  Forall (fun s => s <> Any) l2 ->
  join ", " (map scopeLabel l1) = join ", " (map scopeLabel l2) ->
  l1 = l2.
Proof.
  intros H1. revert l2.
  induction H1 as [|a l1 Ha H1 IH]; intros l2 H2 Heq.
  - destruct H2 as [|b l2 Hb H2]; [reflexivity|].
    simpl map in Heq. rewrite join_cons in Heq.
    destruct b; try contradiction; simpl in Heq; discriminate.
  - destruct H2 as [|b l2 Hb H2].
    + simpl map in Heq. rewrite join_cons in Heq.
      destruct a; try contradiction; simpl in Heq; discriminate.
    + simpl map in Heq. rewrite !join_cons in Heq.
      assert (Hab : a = b).
      { destruct a, b; try contradiction; try reflexivity;
          simpl in Heq; discriminate. }
      subst b. apply append_inv_head in Heq. f_equal. apply IH; [exact H2|].
      destruct l1 as [|x l1], l2 as [|y l2]; simpl map in Heq |- *.
      * reflexivity.
      * discriminate.
      * discriminate.
      * now apply (append_inv_head ", ") in Heq.
Qed.

(** X3. Away from the four-element shorthand, the label determines the
    scopes: two sequences of recognised scopes (builds, functions,
    post_processing, runtime), neither of length four, that get the same
    label are the same sequence, in the same order. *)
Theorem getHumanReadableScopes_label_determines_scopes (l1 l2 : list Scope) :
  Forall (fun s => s <> Any) l1 ->
  Forall (fun s => s <> Any) l2 ->
  length l1 <> 4 ->
  length l2 <> 4 ->
  getHumanReadableScopes (Some l1) = getHumanReadableScopes (Some l2) ->
  l1 = l2.
Proof.
  intros H1 H2 Hn1 Hn2. unfold getHumanReadableScopes. simpl.
  destruct (Nat.eqb_spec (length l1) 4); [contradiction|].
  destruct (Nat.eqb_spec (length l2) 4); [contradiction|].
  now apply join_labels_inj.
Qed.

Lemma getHumanReadableScopes_label_determines_scopes_witness :
  [Runtime; Builds] = [Runtime; Builds].
Proof.
  apply (getHumanReadableScopes_label_determines_scopes
           [Runtime; Builds] [Runtime; Builds]).
  - repeat constructor; discriminate.
  - repeat constructor; discriminate.
  - simpl. lia.
  - simpl. lia.
  - reflexivity.
Defined.

(** The examples of the specification. *)
Example getHumanReadableScopes_examples :
  getHumanReadableScopes None = "Builds, Post processing" /\
  getHumanReadableScopes (Some [Builds; Functions; Runtime; PostProcessing]) = "All" /\
  getHumanReadableScopes (Some [Runtime]) = "Runtime" /\
  getHumanReadableScopes (Some []) = "".
Proof. repeat split. Qed.

(** ** More on the sort *)

Lemma sort_insert_last {A} (cmp : A -> A -> Z) (x : A) (acc : list A) :
  Forall (fun y => cmp_le cmp y x) acc -> Js.sort_insert cmp x acc = acc ++ [x].
Proof.
  induction 1 as [|y acc Hy _ IH]; simpl; [reflexivity|].
  unfold cmp_le in Hy. now rewrite Hy, IH.
Qed.

Lemma sorted_app_before {A} (R : A -> A -> Prop) (acc : list A) (x : A) (l : list A) :
  StronglySorted R (acc ++ x :: l) -> Forall (fun y => R y x) acc.
Proof.
  induction acc as [|a acc IH]; simpl; intros Hs; [constructor|].
  apply StronglySorted_inv in Hs as [Hs Ha]. constructor; [|now apply IH].
  rewrite Forall_forall in Ha. apply Ha, list_elem_of_In, in_or_app. right. now left.
Qed.

Lemma sort_from_already_sorted {A} (cmp : A -> A -> Z) (l acc : list A) :
  StronglySorted (cmp_le cmp) (acc ++ l) ->
  fold_left (fun acc x => Js.sort_insert cmp x acc) l acc = acc ++ l.
Proof.
  revert acc. induction l as [|x l IH]; intros acc Hs; simpl.
  - now rewrite app_nil_r.
  - rewrite (sort_insert_last cmp x acc) by (eapply sorted_app_before, Hs).
    rewrite IH; rewrite <- app_assoc; [reflexivity|exact Hs].
Qed.

Lemma sort_already_sorted {A} (cmp : A -> A -> Z) (l : list A) :
  StronglySorted (cmp_le cmp) l -> Js.sort cmp l = l.
Proof. intros Hs. now apply (sort_from_already_sorted cmp l []). Qed.

Lemma sort_compareKeys_idempotent items :
  Js.sort compareKeys (Js.sort compareKeys items) = Js.sort compareKeys items.
Proof.
  apply sort_already_sorted.
  apply (sort_sorted compareKeys compareKeys_asym compareKeys_le_trans).
Qed.

(** ** Effects of the translators on the store *)

Lemma reduce_mongoStep_total items acc :
  exists out,
    forall w', reduce_from mongoStep acc items w' = (Ok out, w').
Proof.
  revert acc. induction items as [|cur items IH]; intros acc; simpl.
  - now exists acc.
  - unfold bind.
    destruct (IH match List.find (fun val => Js.includes [Dev; All] (context val))
                         (values cur) with
                 | Some envVar =>
                     if Js.truthy (value envVar)
                     then obj_set (key cur) (value envVar) (obj_spread obj_empty acc)
                     else acc
                 | None => acc
                 end) as (out & Hout).
    exists out. intros w'. rewrite mongoStep_run. apply Hout.
Qed.

(** X4. Whatever records the array holds, [translateFromEnvelopeToMongo]
    does not fault and leaves its argument array holding the same records
    rearranged, in case-insensitive key order when the keys are ASCII
    strings; every other array and the call log are as before. *)
Theorem translateFromEnvelopeToMongo_sorts_argument_only r items w :
  arrays w !! r = Some items ->
  exists out w',
    translateFromEnvelopeToMongo r w = (Ok out, w') /\
    (exists sorted,
        arrays w' !! r = Some sorted /\
        Permutation sorted items /\
        (Forall (fun it => isAscii (key it) = true) items ->
         StronglySorted item_le sorted)) /\
    (forall r', r' <> r -> arrays w' !! r' = arrays w !! r') /\
    length (arrays w') = length (arrays w) /\
    calls w' = calls w.
Proof.
  intros Hr.
  destruct (reduce_mongoStep_total (Js.sort compareKeys items) obj_empty)
    as (out & Hout).
  exists out; eexists. split.
  - unfold translateFromEnvelopeToMongo, bind.
    rewrite (arr_sort_run _ _ _ _ Hr).
    erewrite arr_reduce_run by
      (simpl; apply list_lookup_insert_eq; eapply lookup_lt_Some, Hr).
    apply Hout.
  - simpl. repeat split.
    + exists (Js.sort compareKeys items). repeat split.
      * apply list_lookup_insert_eq. eapply lookup_lt_Some, Hr.
      * apply sort_perm.
      * intros _. apply sort_compareKeys_sorted.
    + intros r' Hne. now apply list_lookup_insert_ne.
    + apply length_insert.
Qed.

Lemma translateFromEnvelopeToMongo_sorts_argument_only_witness :
  exists out w' sorted,
    translateFromEnvelopeToMongo 0 Sample.fruitWorld = (Ok out, w') /\
    arrays w' !! 0 = Some sorted /\
    StronglySorted item_le sorted /\
    calls w' = [].
Proof.
  destruct (translateFromEnvelopeToMongo_sorts_argument_only 0 Sample.fruit
              Sample.fruitWorld)
    as (out & w' & Hrun & (sorted & Hr & _ & Hsorted) & _ & _ & Hcalls);
    [reflexivity|].
  exists out, w', sorted. repeat split; auto.
  apply Hsorted. repeat constructor.
Defined.

(** X5. A second call of [translateFromEnvelopeToMongo] on the same array
    (of records with distinct keys) returns the same flat env as the first
    and changes nothing: the first call has left the array sorted. *)
Theorem translateFromEnvelopeToMongo_twice r items w :
  arrays w !! r = Some items ->
  List.NoDup (map key items) ->
  exists out w',
    translateFromEnvelopeToMongo r w = (Ok out, w') /\
    twice (translateFromEnvelopeToMongo r) w = (Ok (out, out), w').
Proof.
  intros Hr Hnd.
  pose proof (translateFromEnvelopeToMongo_run r items w Hr Hnd) as Hrun.
  set (sorted := Js.sort compareKeys items) in *.
  set (w' := {| arrays := <[r := sorted]> (arrays w); calls := calls w |}) in *.
  assert (Hr' : arrays w' !! r = Some sorted).
  { simpl. apply list_lookup_insert_eq. eapply lookup_lt_Some, Hr. }
  assert (Hnd' : List.NoDup (map key sorted)).
  { apply (Permutation_NoDup
             (Permutation_map key (Permutation_sym (sort_perm compareKeys items)))).
    exact Hnd. }
  pose proof (translateFromEnvelopeToMongo_run r sorted w' Hr' Hnd') as Hrun'.
  unfold sorted in Hrun' at 1 2. rewrite sort_compareKeys_idempotent in Hrun'.
  fold sorted in Hrun'.
  assert (Hsame : {| arrays := <[r := sorted]> (arrays w'); calls := calls w' |} = w').
  { unfold w'. simpl. f_equal. apply list_insert_id.
    apply list_lookup_insert_eq. eapply lookup_lt_Some, Hr. }
  rewrite Hsame in Hrun'.
  eexists _, w'. split; [exact Hrun|].
  unfold twice, bind. now rewrite Hrun, Hrun'.
Qed.

Lemma translateFromEnvelopeToMongo_twice_witness :
  exists out w',
    translateFromEnvelopeToMongo 0 Sample.fruitWorld = (Ok out, w') /\
    twice (translateFromEnvelopeToMongo 0) Sample.fruitWorld = (Ok (out, out), w').
Proof.
  apply (translateFromEnvelopeToMongo_twice 0 Sample.fruit Sample.fruitWorld).
  - reflexivity.
  - simpl. repeat constructor; simpl; intuition discriminate.
Defined.

(** ** More on the formatter *)

Lemma reduce_formatStep_result ctx source items acc :
  exists res, forall w, reduce_from (formatStep ctx source) acc items w = (res, w).
Proof.
  revert acc. induction items as [|cur items IH]; intros acc; simpl.
  - now exists (Ok acc).
  - unfold bind.
    destruct (findValueFromContext (values cur) ctx) as [found|] eqn:Hf.
    + destruct (IH (obj_set (key cur)
                      {| var_context := Some (context found);
                         var_scopes := Some (scopes cur);
                         sources := [source];
                         var_value := value found |}
                      (obj_spread obj_empty acc))) as (res & Hres).
      exists res. intros w. rewrite (formatStep_run _ _ _ _ _ _ Hf). apply Hres.
    + exists (Throw TypeError). intros w. unfold formatStep. now rewrite Hf.
Qed.

Lemma formatEnvelopeData_unfold ctx r scope source items w :
  arrays w !! r = Some items ->
  formatEnvelopeData ctx (ArrayRef r) scope source w =
  reduce_from (formatStep ctx source) obj_empty
    (Js.sort compareKeys
       (List.filter (matchesScope scope) (List.filter (matchesContext ctx) items)))
    {| arrays := (arrays w ++ [List.filter (matchesContext ctx) items]) ++
                 [Js.sort compareKeys
                    (List.filter (matchesScope scope)
                       (List.filter (matchesContext ctx) items))];
       calls := calls w |}.
Proof.
  intros Hr. unfold formatEnvelopeData, bind.
  rewrite (arr_filter_run _ _ _ _ Hr).
  erewrite arr_filter_run by (simpl; apply lookup_snoc).
  erewrite arr_sort_run by (simpl; apply lookup_snoc).
  erewrite arr_reduce_run by (simpl; rewrite insert_snoc; apply lookup_snoc).
  simpl. now rewrite insert_snoc.
Qed.

(** X6. Whatever records the array holds (distinct keys or not),
    [formatEnvelopeData] does not fault, makes no client call, and only
    adds arrays to the store: every array that exists before the call holds
    the same records after it, its argument included. The mapping that it
    returns has each key once and every entry carries exactly the given
    source. *)
Theorem formatEnvelopeData_reads_only ctx r scope source items w :
  arrays w !! r = Some items ->
  exists out w',
    formatEnvelopeData ctx (ArrayRef r) scope source w = (Ok out, w') /\
    (forall r' old, arrays w !! r' = Some old -> arrays w' !! r' = Some old) /\
    calls w' = calls w /\
    obj_wf out /\
    (forall k v, In (k, v) out -> sources v = [source]) /\
    (forall k, In k (Object_keys out) -> In k (map key items)).
Proof.
  intros Hr.
  destruct (formatEnvelopeData_total ctx r scope source items w Hr)
    as (out & w' & Hrun & Hcalls & _ & Hold & Hwf & Hsrc & Hkeys).
  exists out, w'. repeat split; auto.
  intros k v Hin. rewrite Forall_forall in Hsrc.
  apply (Hsrc (k, v)). now apply list_elem_of_In.
Qed.

Lemma formatEnvelopeData_reads_only_witness :
  exists out w',
    formatEnvelopeData Dev (ArrayRef 0) Functions Account Sample.fruitWorld
      = (Ok out, w') /\
    calls w' = [].
Proof.
  destruct (formatEnvelopeData_reads_only Dev 0 Functions Account Sample.fruit
              Sample.fruitWorld)
    as (out & w' & Hrun & _ & Hcalls & _); [reflexivity|].
  exists out, w'. auto.
Defined.

(** X7. [formatEnvelopeData] is repeatable: called again with the same
    arguments on the same array, it returns the same mapping as the first
    time (the spec's idempotence property, which holds because the first
    call leaves the array as it was). *)
Theorem formatEnvelopeData_twice ctx r scope source items w :
  arrays w !! r = Some items ->
  exists out w',
    twice (formatEnvelopeData ctx (ArrayRef r) scope source) w = (Ok (out, out), w').
Proof.
  intros Hr.
  destruct (reduce_formatStep_result ctx source
              (Js.sort compareKeys
                 (List.filter (matchesScope scope)
                    (List.filter (matchesContext ctx) items))) obj_empty)
    as (res & Hres).
  pose proof (formatEnvelopeData_unfold ctx r scope source items w Hr) as Hu.
  rewrite Hres in Hu.
  destruct (formatEnvelopeData_total ctx r scope source items w Hr)
    as (out & w1 & Hrun & _ & _ & Hold & _).
  rewrite Hu in Hrun. injection Hrun as -> Hw1.
  pose proof (formatEnvelopeData_unfold ctx r scope source items w1
                (Hold r items Hr)) as Hu1.
  rewrite Hres in Hu1.
  exists out; eexists. unfold twice, bind. rewrite Hu, Hw1, Hu1. reflexivity.
Qed.

Lemma formatEnvelopeData_twice_witness :
  exists out w',
    twice (formatEnvelopeData Dev (ArrayRef 0) Any Ui) Sample.fruitWorld
    = (Ok (out, out), w').
Proof.
  apply (formatEnvelopeData_twice Dev 0 Any Ui Sample.fruit Sample.fruitWorld).
  reflexivity.
Defined.

(** ** Migrating a legacy env *)

Lemma filter_all {A} (p : A -> bool) (l : list A) :
  (forall x, In x l -> p x = true) -> List.filter p l = l.
Proof.
  induction l as [|x l IH]; intros H; simpl; [reflexivity|].
  rewrite (H x) by now left. f_equal. apply IH. intros y Hy. apply H. now right.
Qed.

Lemma Forall2_In_l {A B} (P : A -> B -> Prop) (l : list A) (l' : list B) (x : A) :
  Forall2 P l l' -> In x l -> exists y, In y l' /\ P x y.
Proof.
  induction 1 as [|a b l l' Hab _ IH]; simpl; [tauto|].
  intros [<-|Hx]; [exists b; auto|].
  destruct (IH Hx) as (y & Hy & Hxy). exists y. auto.
Qed.

Lemma recordOfFlat_matches ctx scope kv :
  matchesContext ctx (recordOfFlat kv) = true /\
  matchesScope scope (recordOfFlat kv) = true.
Proof.
  split.
  - now destruct ctx.
  - now destruct scope.
Qed.

Lemma recordOfFlat_found cands kv found :
  first_match cands (values (recordOfFlat kv)) found ->
  found = {| context := All; value := snd kv |}.
Proof.
  intros (pre & post & Heq & _). simpl in Heq.
  destruct pre as [|p pre]; [now injection Heq|].
  injection Heq as _ Heq. now destruct pre.
Qed.


(** X9. A legacy env migrated with [translateFromMongoToEnvelope] and then
    formatted is visible in full, for every requested context and every
    requested scope: the mapping has exactly the keys of the env, and each
    holds its value (empty values too) with context [all], the four scopes
    and the given source. *)
Theorem formatMigrated_keeps_every_entry ctx env scope source w :
  obj_wf env ->
  exists out w',
    formatMigrated ctx env scope source w = (Ok out, w') /\
    forall k,
      obj_get k out =
      (fun v => {| var_context := Some All;
                   var_scopes := Some [Builds; Functions; Runtime; PostProcessing];
                   sources := [source];
                   var_value := v |}) <$> obj_get k env.
Proof.
  intros Hwf.
  set (records := map recordOfFlat env).
  set (w1 := {| arrays := arrays w ++ [records]; calls := calls w |}).
  assert (Hkeys : map key records = Object_keys env).
  { unfold records, Object_keys. rewrite map_map. reflexivity. }
  assert (Hnd : List.NoDup (map key records)) by now rewrite Hkeys.
  destruct (formatEnvelopeData_run ctx (length (arrays w)) scope source records w1)
    as (out & Hrun & Hout); [apply lookup_snoc|exact Hnd|].
  assert (Hall : List.filter (matchesScope scope)
                   (List.filter (matchesContext ctx) records) = records).
  { assert (Hctx : List.filter (matchesContext ctx) records = records).
    { apply filter_all. intros it Hit.
      apply in_map_iff in Hit as (kv & <- & _).
      apply (recordOfFlat_matches ctx scope kv). }
    rewrite Hctx. apply filter_all. intros it Hit.
    apply in_map_iff in Hit as (kv & <- & _).
      apply (recordOfFlat_matches ctx scope kv). }
  rewrite Hall in Hrun, Hout.
  pose proof (sort_perm compareKeys records) as Hperm.
  assert (Hwf' : obj_wf out).
  { unfold obj_wf. rewrite (emitted_keys _ _ _ _ Hout).
    apply (Permutation_NoDup (Permutation_map key (Permutation_sym Hperm)) Hnd). }
  eexists out, _. split.
  { unfold formatMigrated, bind, translateFromMongoToEnvelope, arr_new.
    exact Hrun. }
  intros k. destruct (obj_get k env) as [v|] eqn:Hg; simpl.
  - apply obj_get_In in Hg.
    assert (Hrec : In (recordOfFlat (k, v)) (Js.sort compareKeys records)).
    { apply (Permutation_in _ (Permutation_sym Hperm)). now apply in_map. }
    destruct (Forall2_In_l _ _ _ _ Hout Hrec) as ([k' e] & Hin & Hk & found & Hm & He).
    simpl in Hk, He. subst k'. apply recordOfFlat_found in Hm. subst found.
    apply In_obj_get; [exact Hwf'|]. now rewrite He in Hin.
  - apply obj_get_None. rewrite (emitted_keys _ _ _ _ Hout).
    apply obj_get_None in Hg. intros Hin. apply Hg. rewrite <- Hkeys.
    apply (Permutation_in _ (Permutation_map key Hperm) Hin).
Qed.

Lemma formatMigrated_keeps_every_entry_witness :
  exists out w',
    formatMigrated Production [("FOO", "bar"); ("EMPTY", "")] Runtime Ui
      Sample.emptyWorld = (Ok out, w') /\
    obj_get "EMPTY" out
    = Some {| var_context := Some All;
              var_scopes := Some [Builds; Functions; Runtime; PostProcessing];
              sources := [Ui];
              var_value := "" |}.
Proof.
  destruct (formatMigrated_keeps_every_entry Production
              [("FOO", "bar"); ("EMPTY", "")] Runtime Ui Sample.emptyWorld)
    as (out & w' & Hrun & Hget); [solve_wf|].
  exists out, w'. split; [exact Hrun|]. now rewrite Hget.
Defined.

(** X10. For any flat env, truthy values or not, translating to the
    multi-context shape and back keeps exactly the entries whose value is
    not the empty string: an entry with an empty value is dropped,
    every other entry comes back with its value. *)
Theorem mongo_round_trip_drops_exactly_empty_values env w :
  obj_wf env ->
  exists out w',
    mongoRoundTrip env w = (Ok out, w') /\
    obj_wf out /\
    forall k v, obj_get k out = Some v <-> In (k, v) env /\ v <> "".
Proof.
  intros Hwf.
  set (records := map recordOfFlat env).
  assert (Hkeys : map key records = Object_keys env).
  { unfold records, Object_keys. rewrite map_map. reflexivity. }
  assert (Hnd : List.NoDup (map key records)) by now rewrite Hkeys.
  pose proof (sort_perm compareKeys records) as Hperm.
  assert (Hwf' : obj_wf (mongoEntries (Js.sort compareKeys records))).
  { apply mongoEntries_wf.
    apply (Permutation_NoDup (Permutation_map key (Permutation_sym Hperm)) Hnd). }
  eexists _, _. split; [|split; [exact Hwf'|]].
  - unfold mongoRoundTrip, bind, translateFromMongoToEnvelope, arr_new, Object_entries.
    apply (translateFromEnvelopeToMongo_run _ records); [|exact Hnd].
    simpl. apply lookup_snoc.
  - intros k v. split.
    + intros Hg. apply obj_get_In, mongoEntries_In in Hg
        as (it & found & Hit & Hk & Hm & Hv & Hne).
      apply (Permutation_in _ Hperm), in_map_iff in Hit as ([k' v'] & <- & Hin).
      apply recordOfFlat_found in Hm. subst found. simpl in Hk, Hv. subst k' v'.
      now split.
    + intros [Hin Hne]. apply In_obj_get; [exact Hwf'|]. apply mongoEntries_In.
      exists (recordOfFlat (k, v)), {| context := All; value := v |}.
      repeat split; auto.
      * apply (Permutation_in _ (Permutation_sym Hperm)). now apply in_map.
      * exists [], []. repeat split; [constructor|simpl; tauto].
Qed.

Lemma mongo_round_trip_drops_exactly_empty_values_witness :
  exists out w',
    mongoRoundTrip [("FOO", "bar"); ("EMPTY", "")] Sample.emptyWorld = (Ok out, w') /\
    obj_get "EMPTY" out = None /\
    obj_get "FOO" out = Some "bar".
Proof.
  destruct (mongo_round_trip_drops_exactly_empty_values
              [("FOO", "bar"); ("EMPTY", "")] Sample.emptyWorld)
    as (out & w' & Hrun & _ & Hget); [solve_wf|].
  exists out, w'. split; [exact Hrun|]. split.
  - destruct (obj_get "EMPTY" out) as [v|] eqn:Hv; [|reflexivity].
    apply Hget in Hv as [Hin Hne]. simpl in Hin.
    destruct Hin as [[= <-]|[[= <-]|[]]]. contradiction.
  - apply Hget. split; [simpl; tauto|discriminate].
Defined.

(** ** More on the resolver *)

Lemma no_keys_empty {V} (o : Obj V) :
  (forall k, In k (Object_keys o) -> False) -> o = [].
Proof.
  destruct o as [|[k v] o]; [reflexivity|]. intros H. destruct (H k). now left.
Qed.

Lemma clientFails_no_items api accountId reqKey siteId :
  clientFails api accountId reqKey siteId ->
  remoteItems api accountId reqKey siteId = [].
Proof.
  unfold clientFails, remoteItems. destruct (Js.truthy reqKey); now intros ->.
Qed.

(** X11. When both client calls fail (a collaborator who may not read the
    shared variables), [getEnvelopeEnv] still returns, and the mapping is
    made of the legacy env alone: it holds exactly the [general] entries
    and, for scope [any], [builds] or [post_processing], the [addons] and
    [configFile] entries, each with the entry of the legacy env. *)
Theorem getEnvelopeEnv_local_only_when_client_fails
    api ctx env reqKey scope siteInfo accountId w :
  obj_wf env ->
  account_slug siteInfo = Some accountId ->
  clientFails api accountId reqKey None ->
  clientFails api accountId reqKey (id siteInfo) ->
  exists result w',
    getEnvelopeEnv api ctx env reqKey scope siteInfo w = (Ok result, w') /\
    forall k v,
      obj_get k result = Some v <->
      In (k, v) env /\
      (head (sources v) = Some General \/
       (includeConfigEnvVars scope = true /\
        (head (sources v) = Some Addons \/ head (sources v) = Some ConfigFile))).
Proof.
  intros Hwf Hacc Hfa Hfs.
  destruct (getEnvelopeEnv_run api ctx env reqKey scope siteInfo accountId w Hacc)
    as (ai & si & accountEnv & siteEnv & w1 & w2 & w3 & w4
        & _ & _ & _ & _ & Hrun & _ & _ & _ & _ & _ & Hka & Hks).
  rewrite (clientFails_no_items _ _ _ _ Hfa) in Hka.
  rewrite (clientFails_no_items _ _ _ _ Hfs) in Hks.
  apply no_keys_empty in Hka, Hks. subst accountEnv siteEnv.
  eexists _, w4. split; [exact Hrun|].
  intros k v.
  rewrite merge_get by (apply includedSources_wf; constructor).
  unfold includedSources.
  assert (Hsome : forall source vs,
             obj_get k (filterEnvBySource env source) = Some vs ->
             In (k, vs) env /\ head (sources vs) = Some source).
  { intros source vs. now apply filterEnvBySource_get. }
  assert (Hnone : forall source,
             obj_get k (filterEnvBySource env source) = None ->
             In (k, v) env -> head (sources v) <> Some source).
  { intros source Hn Hin Hs.
    rewrite (proj2 (filterEnvBySource_get env source k v Hwf) (conj Hin Hs)) in Hn.
    discriminate. }
  assert (Hfound : forall source vs,
             obj_get k (filterEnvBySource env source) = Some vs ->
             In (k, v) env -> Some vs = Some v).
  { intros source vs Hs Hin. apply Hsome in Hs as [Hin' _].
    now rewrite (wf_unique env k v vs Hwf Hin Hin'). }
  destruct (includeConfigEnvVars scope); simpl.
  - destruct (obj_get k (filterEnvBySource env ConfigFile)) as [vc|] eqn:Ec.
    { split.
      - intros [= ->]. apply Hsome in Ec. split; [tauto|]. right. tauto.
      - intros [Hin _]. eapply Hfound; eauto. }
    destruct (obj_get k (filterEnvBySource env Addons)) as [va|] eqn:Ea.
    { split.
      - intros [= ->]. apply Hsome in Ea. split; [tauto|]. right. tauto.
      - intros [Hin _]. eapply Hfound; eauto. }
    destruct (obj_get k (filterEnvBySource env General)) as [vg|] eqn:Eg.
    { split.
      - intros [= ->]. apply Hsome in Eg. tauto.
      - intros [Hin _]. eapply Hfound; eauto. }
    split; [discriminate|]. intros [Hin [Hs|[_ [Hs|Hs]]]]; exfalso.
    + now apply (Hnone General Eg Hin).
    + now apply (Hnone Addons Ea Hin).
    + now apply (Hnone ConfigFile Ec Hin).
  - destruct (obj_get k (filterEnvBySource env General)) as [vg|] eqn:Eg.
    { split.
      - intros [= ->]. apply Hsome in Eg. tauto.
      - intros [Hin _]. eapply Hfound; eauto. }
    split; [discriminate|]. intros [Hin [Hs|[Hoff _]]]; [|discriminate].
    exfalso. now apply (Hnone General Eg Hin).
Qed.

Lemma getEnvelopeEnv_local_only_when_client_fails_witness :
  exists result w',
    getEnvelopeEnv Sample.deniedApi Dev Sample.env "" Any Sample.site Sample.emptyWorld
      = (Ok result, w') /\
    obj_get "ADDON_URL" result = Some (Sample.legacyEntry Addons "addon").
Proof.
  destruct (getEnvelopeEnv_local_only_when_client_fails
              Sample.deniedApi Dev Sample.env "" Any Sample.site "acme"
              Sample.emptyWorld)
    as (result & w' & Hrun & Hget);
    [solve_wf|reflexivity|reflexivity|reflexivity|].
  exists result, w'. split; [exact Hrun|].
  apply Hget. split; [simpl; tauto|]. right. split; [reflexivity|]. now left.
Defined.

Lemma filter_filter_implied {A} (p q : A -> bool) (l : list A) :
  (forall x, p x = true -> q x = true) ->
  List.filter p (List.filter q l) = List.filter p l.
Proof.
  intros Himp. induction l as [|x l IH]; simpl; [reflexivity|].
  destruct (q x) eqn:Hq; simpl.
  - now rewrite IH.
  - rewrite IH. destruct (p x) eqn:Hp; [|reflexivity].
    apply Himp in Hp. congruence.
Qed.

Lemma filterEnvBySource_of_read_part env source :
  obj_wf env ->
  In source [General; Addons; ConfigFile] ->
  filterEnvBySource (List.filter readFromLegacy env) source
  = filterEnvBySource env source.
Proof.
  intros Hwf Hs.
  rewrite (filterEnvBySource_filter env source Hwf).
  rewrite filterEnvBySource_filter by now apply NoDup_map_filter.
  apply filter_filter_implied. intros [k v]. simpl. intros Hv.
  apply bool_decide_eq_true in Hv. unfold readFromLegacy. simpl. rewrite Hv.
  destruct Hs as [<-|[<-|[<-|[]]]]; reflexivity.
Qed.

(** X12. [getEnvelopeEnv] never reads the entries of the legacy env whose
    first source is [account] or [ui] (nor entries without a source): with
    those entries removed from the env, the call has the same outcome, the
    same mapping and the same store. *)
Theorem getEnvelopeEnv_ignores_remote_sourced_legacy_entries
    api ctx env reqKey scope siteInfo w :
  obj_wf env ->
  getEnvelopeEnv api ctx (List.filter readFromLegacy env) reqKey scope siteInfo w
  = getEnvelopeEnv api ctx env reqKey scope siteInfo w.
Proof.
  intros Hwf. unfold getEnvelopeEnv, bind.
  destruct (fetchEnvelopeItems _ api reqKey None w) as [[ai|e] w1]; [|reflexivity].
  destruct (fetchEnvelopeItems _ api reqKey (id siteInfo) w1) as [[si|e] w2];
    [|reflexivity].
  destruct (formatEnvelopeData ctx ai scope Account w2) as [[accountEnv|e] w3];
    [|reflexivity].
  destruct (formatEnvelopeData ctx si scope Ui w3) as [[siteEnv|e] w4];
    [|reflexivity].
  rewrite !filterEnvBySource_of_read_part by (auto; simpl; tauto).
  reflexivity.
Qed.

Lemma getEnvelopeEnv_ignores_remote_sourced_legacy_entries_witness :
  getEnvelopeEnv Sample.api Dev (List.filter readFromLegacy Sample.envOfEachSource)
    "" Any Sample.site Sample.emptyWorld
  = getEnvelopeEnv Sample.api Dev Sample.envOfEachSource "" Any Sample.site
      Sample.emptyWorld.
Proof.
  apply (getEnvelopeEnv_ignores_remote_sourced_legacy_entries
           Sample.api Dev Sample.envOfEachSource "" Any Sample.site Sample.emptyWorld).
  solve_wf.
Defined.

(** X13. [getEnvelopeEnv] makes no client call when the site has no account
    identifier, and otherwise exactly two, whether they succeed or not:
    first the account-level one (no site identifier), then the site-level
    one; each is [getEnvVar] for a non-empty key and [getEnvVars]
    otherwise. *)
Theorem getEnvelopeEnv_client_calls api ctx env reqKey scope siteInfo w :
  calls (snd (getEnvelopeEnv api ctx env reqKey scope siteInfo w)) =
  calls w ++
  match account_slug siteInfo with
  | None => []
  | Some accountId =>
      [ remoteCall accountId reqKey None;
        remoteCall accountId reqKey (id siteInfo) ]
  end.
Proof.
  destruct (account_slug siteInfo) as [accountId|] eqn:Hacc.
  - destruct (getEnvelopeEnv_run api ctx env reqKey scope siteInfo accountId w Hacc)
      as (ai & si & accountEnv & siteEnv & w1 & w2 & w3 & w4
          & _ & _ & _ & _ & Hrun & Hcalls & _).
    now rewrite Hrun.
  - unfold getEnvelopeEnv, bind. rewrite Hacc. simpl. now rewrite app_nil_r.
Qed.

(** ** Plugins *)

Lemma find_first {A} (f : A -> bool) (l : list A) (x : A) :
  List.find f l = Some x <->
  exists pre post,
    l = pre ++ x :: post /\ f x = true /\ Forall (fun y => f y = false) pre.
Proof.
  induction l as [|a l IH]; simpl.
  - split; [discriminate|]. intros (pre & post & Heq & _). now destruct pre.
  - destruct (f a) eqn:Ha.
    + split.
      * intros [= <-]. exists [], l. repeat split; [exact Ha|constructor].
      * intros (pre & post & Heq & Hx & Hpre). destruct pre as [|p pre].
        -- now injection Heq as ->.
        -- injection Heq as <- _. apply Forall_cons in Hpre as [Hp _]. congruence.
    + rewrite IH. split.
      * intros (pre & post & -> & Hx & Hpre). exists (a :: pre), post.
        repeat split; [exact Hx|now constructor].
      * intros (pre & post & Heq & Hx & Hpre). destruct pre as [|p pre].
        -- injection Heq as ->. congruence.
        -- injection Heq as <- ->. apply Forall_cons in Hpre as [_ Hpre].
           now exists pre, post.
Qed.

Lemma isPluginInstalled_In configPlugins plugin :
  isPluginInstalled configPlugins plugin = true <->
  exists o, In o configPlugins /\ prop o "package" = PString plugin.
Proof.
  unfold isPluginInstalled. rewrite existsb_exists.
  split; intros (o & Ho & Hp); exists o; split; auto.
  - now apply bool_decide_eq_true in Hp.
  - now apply bool_decide_eq_true.
Qed.

(** X14. [getPluginInfo] returns the first plugin of the list whose package
    is the requested name, and [isPluginInstalled] is true exactly when
    [getPluginInfo] finds a plugin in the same list. *)
Theorem getPluginInfo_first_with_package list packageName :
  (forall o,
      getPluginInfo list packageName = Some o <->
      exists pre post,
        list = pre ++ o :: post /\
        prop o "package" = PString packageName /\
        Forall (fun o' => prop o' "package" <> PString packageName) pre) /\
  (isPluginInstalled list packageName = true <->
   exists o, getPluginInfo list packageName = Some o).
Proof.
  split.
  - intros o. unfold getPluginInfo. rewrite find_first. split.
    + intros (pre & post & Heq & Ho & Hpre). exists pre, post.
      apply bool_decide_eq_true in Ho. repeat split; auto.
      eapply Forall_impl; [exact Hpre|]. simpl. intros o' Ho'.
      now apply bool_decide_eq_false in Ho'.
    + intros (pre & post & Heq & Ho & Hpre). exists pre, post.
      repeat split; auto; [now apply bool_decide_eq_true|].
      eapply Forall_impl; [exact Hpre|]. simpl. intros o' Ho'.
      now apply bool_decide_eq_false.
  - rewrite isPluginInstalled_In. unfold getPluginInfo. split.
    + intros (o & Ho & Hp).
      destruct (List.find _ list) as [o'|] eqn:Hf; [eauto|].
      apply (find_none _ _ Hf) in Ho. apply bool_decide_eq_false in Ho. contradiction.
    + intros (o & Ho). apply find_some in Ho as [Ho Hp].
      exists o. split; [exact Ho|]. now apply bool_decide_eq_true in Hp.
Qed.

Lemma getRecommendPlugins_In frameworkPlugins config plugin :
  In plugin (getRecommendPlugins frameworkPlugins config) <->
  In plugin frameworkPlugins /\
  forall o, In o (plugins config) -> prop o "package" <> PString plugin.
Proof.
  unfold getRecommendPlugins. rewrite filter_In, negb_true_iff. split.
  - intros [Hin Hno]. split; [exact Hin|]. intros o Ho Hp.
    assert (Hyes : isPluginInstalled (plugins config) plugin = true)
      by (apply isPluginInstalled_In; eauto).
    congruence.
  - intros [Hin Hno]. split; [exact Hin|].
    destruct (isPluginInstalled (plugins config) plugin) eqn:E; [|reflexivity].
    apply isPluginInstalled_In in E as (o & Ho & Hp). now apply Hno in Ho.
Qed.

(** X15. [getRecommendPlugins] returns the framework plugins that no plugin
    of the config has as its package, and only those, in the order of
    [frameworkPlugins] (a sub-sequence of it). *)
Theorem getRecommendPlugins_not_installed_in_order frameworkPlugins config :
  (forall plugin,
      In plugin (getRecommendPlugins frameworkPlugins config) <->
      In plugin frameworkPlugins /\
      forall o, In o (plugins config) -> prop o "package" <> PString plugin) /\
  sublist (getRecommendPlugins frameworkPlugins config) frameworkPlugins.
Proof.
  split.
  - intros plugin. apply getRecommendPlugins_In.
  - unfold getRecommendPlugins.
    induction frameworkPlugins as [|p l IH]; simpl; [constructor|].
    destruct (negb _); now constructor.
Qed.

Lemma getRecommendPlugins_app frameworkPlugins configPlugins added :
  getRecommendPlugins frameworkPlugins {| plugins := configPlugins ++ added |} =
  List.filter (fun plugin => negb (isPluginInstalled added plugin))
    (getRecommendPlugins frameworkPlugins {| plugins := configPlugins |}).
Proof.
  unfold getRecommendPlugins, isPluginInstalled. simpl.
  induction frameworkPlugins as [|p l IH]; simpl; [reflexivity|].
  rewrite existsb_app, negb_orb.
  destruct (existsb _ configPlugins); simpl; [exact IH|].
  destruct (existsb _ added); simpl; [exact IH|]. now rewrite IH.
Qed.

(** X16. Once the plugins that [getPluginsToInstall] returns for the
    recommended plugins, passed as the explicit list, are added to the
    config, [getRecommendPlugins] recommends nothing any more, whatever the
    other options are. *)
Theorem getRecommendPlugins_empty_after_install frameworkPlugins config flag single :
  getRecommendPlugins frameworkPlugins
    {| plugins :=
         plugins config ++
         getPluginsToInstall
           {| installSinglePlugin := flag;
              explicitPlugins := Some (getRecommendPlugins frameworkPlugins config);
              recommendedPlugins := single |} |}
  = [].
Proof.
  rewrite getRecommendPlugins_app. apply filter_none. intros p Hp.
  apply negb_false_iff, isPluginInstalled_In.
  exists (obj_set "package" (PString p) obj_empty). split; [|reflexivity].
  unfold getPluginsToInstall. simpl.
  apply (in_map (fun plugin => obj_set "package" (PString plugin) obj_empty)).
  destruct config. exact Hp.
Qed.

(** X17. With no explicit list and [installSinglePlugin] true,
    [getPluginsToInstall] called with the recommended plugins returns one
    plugin, and adding it to the config removes from the recommendation
    exactly the first recommended plugin (every occurrence of it); when
    nothing is recommended the one plugin has an undefined package and the
    recommendation stays empty. *)
Theorem getRecommendPlugins_after_single_install frameworkPlugins config :
  getRecommendPlugins frameworkPlugins
    {| plugins :=
         plugins config ++
         getPluginsToInstall
           {| installSinglePlugin := PBool true;
              explicitPlugins := None;
              recommendedPlugins := getRecommendPlugins frameworkPlugins config |} |}
  = match getRecommendPlugins frameworkPlugins config with
    | [] => []
    | first :: rest => List.filter (fun plugin => negb (String.eqb plugin first)) rest
    end.
Proof.
  rewrite getRecommendPlugins_app. unfold getPluginsToInstall. simpl.
  destruct config as [configPlugins]. simpl.
  destruct (getRecommendPlugins frameworkPlugins {| plugins := configPlugins |})
    as [|first rest]; simpl; [reflexivity|].
  rewrite bool_decide_eq_true_2 by reflexivity. simpl.
  apply filter_ext. intros p. unfold prop. simpl. rewrite orb_false_r. f_equal.
  destruct (String.eqb_spec p first) as [->|Hne].
  - now apply bool_decide_eq_true_2.
  - apply bool_decide_eq_false_2. congruence.
Qed.

Lemma getPluginsToInstall_keys options :
  Forall (fun o => Object_keys o = ["package"]) (getPluginsToInstall options).
Proof.
  unfold getPluginsToInstall. destruct (explicitPlugins options) as [names|].
  - induction names; simpl; constructor; auto.
  - destruct (bool_decide _); repeat constructor.
Qed.

(** X18. The plugins that [getPluginsToInstall] returns have the single
    property [package]. An explicit list wins over the flag and gives one
    plugin for each name, in order; otherwise a true [installSinglePlugin]
    gives exactly one plugin, whose package is undefined exactly when
    nothing is recommended; otherwise nothing is installed. *)
Theorem getPluginsToInstall_shape options :
  Forall (fun o => Object_keys o = ["package"]) (getPluginsToInstall options) /\
  (forall names,
      explicitPlugins options = Some names ->
      map (fun o => prop o "package") (getPluginsToInstall options)
      = map PString names) /\
  (explicitPlugins options = None ->
   installSinglePlugin options = PBool true ->
   exists o,
     getPluginsToInstall options = [o] /\
     (prop o "package" = PUndefined <-> recommendedPlugins options = [])) /\
  (explicitPlugins options = None ->
   installSinglePlugin options <> PBool true ->
   getPluginsToInstall options = []).
Proof.
  split; [apply getPluginsToInstall_keys|].
  unfold getPluginsToInstall. repeat split.
  - intros names ->. induction names; simpl; [reflexivity|]. now f_equal.
  - intros -> ->. rewrite bool_decide_eq_true_2 by reflexivity.
    eexists. split; [reflexivity|].
    destruct (recommendedPlugins options); unfold prop; simpl; split; congruence.
  - intros -> Hflag. now rewrite bool_decide_eq_false_2.
Qed.

Lemma getPluginsToInstall_shape_witness :
  exists o,
    getPluginsToInstall
      {| installSinglePlugin := PBool true;
         explicitPlugins := None;
         recommendedPlugins := [] |} = [o] /\
    prop o "package" = PUndefined.
Proof.
  destruct (getPluginsToInstall_shape
              {| installSinglePlugin := PBool true;
                 explicitPlugins := None;
                 recommendedPlugins := [] |})
    as (_ & _ & Hsingle & _).
  destruct Hsingle as (o & Ho & Hund); [reflexivity|reflexivity|].
  exists o. split; [exact Ho|]. now apply Hund.
Defined.

(** X19. [getUIPlugins] keeps the [package] of the plugins whose origin is
    ["ui"], in order, and nothing else of them: a plugin is installed among
    its result exactly when the config has a ui-origin plugin of that
    package, and, the origin being dropped, [getUIPlugins] of its own
    result or of the result of [getPluginsToInstall] is empty. *)
Theorem getUIPlugins_keeps_package_only configPlugins :
  Forall (fun o => Object_keys o = ["package"]) (getUIPlugins configPlugins) /\
  (forall plugin,
      isPluginInstalled (getUIPlugins configPlugins) plugin = true <->
      exists o,
        In o configPlugins /\
        prop o "origin" = PString "ui" /\
        prop o "package" = PString plugin) /\
  getUIPlugins (getUIPlugins configPlugins) = [] /\
  (forall options, getUIPlugins (getPluginsToInstall options) = []).
Proof.
  assert (Hnone : forall l : list (Obj PropValue),
             Forall (fun o => Object_keys o = ["package"]) l -> getUIPlugins l = []).
  { intros l Hl. unfold getUIPlugins. rewrite filter_none; [reflexivity|].
    intros o Ho. rewrite Forall_forall in Hl.
    apply list_elem_of_In, Hl in Ho. apply bool_decide_eq_false.
    unfold prop. destruct o as [|[k v] [|? ?]]; try discriminate.
    injection Ho as ->. simpl. discriminate. }
  assert (Hkeys : Forall (fun o => Object_keys o = ["package"])
                    (getUIPlugins configPlugins)).
  { unfold getUIPlugins. apply Forall_forall. intros o Ho.
    apply list_elem_of_In, in_map_iff in Ho as (o' & <- & _). reflexivity. }
  split; [exact Hkeys|]. split; [|split].
  - intros plugin. rewrite isPluginInstalled_In. unfold getUIPlugins. split.
    + intros (o & Ho & Hp). apply in_map_iff in Ho as (o' & <- & Ho').
      apply filter_In in Ho' as [Ho' Hui]. apply bool_decide_eq_true in Hui.
      exists o'. repeat split; auto.
    + intros (o & Ho & Hui & Hp).
      exists (obj_set "package" (prop o "package") obj_empty). split.
      * apply (in_map (fun o => obj_set "package" (prop o "package") obj_empty)).
        apply filter_In. split; [exact Ho|]. now apply bool_decide_eq_true.
      * unfold prop at 1. simpl. exact Hp.
  - now apply Hnone.
  - intros options. apply Hnone. apply getPluginsToInstall_keys.
Qed.

(** X20. [getPluginsList] never faults and leaves the store as it is: it
    returns the fetched list when both the request and the decoding of its
    body succeed, and the bundled list when either of them fails. *)
Theorem getPluginsList_falls_back fetchPlugins pluginsList w :
  getPluginsList fetchPlugins pluginsList w =
  (Ok match fetchPlugins with
      | Some (Some body) => body
      | Some None | None => pluginsList
      end, w).
Proof. now destruct fetchPlugins as [[body|]|]. Qed.

(** ** More on fetching and on the scope filter *)

(** X21. With an account identifier, [fetchEnvelopeItems] never faults and
    never returns the empty object: it makes exactly one client call and
    returns a reference to a fresh array that holds what the client gave
    (the one record for a non-empty key, the whole list otherwise, nothing
    after a failure); the arrays that exist before the call are as they
    were. *)
Theorem fetchEnvelopeItems_with_account accountId api reqKey siteId w :
  exists r w',
    fetchEnvelopeItems (Some accountId) api reqKey siteId w = (Ok (ArrayRef r), w') /\
    arrays w !! r = None /\
    arrays w' !! r =
      Some (if Js.truthy reqKey
            then match getEnvVar api accountId reqKey siteId with
                 | Some item => [item]
                 | None => []
                 end
            else match getEnvVars api accountId siteId with
                 | Some items => items
                 | None => []
                 end) /\
    (forall r' old, arrays w !! r' = Some old -> arrays w' !! r' = Some old) /\
    calls w' =
      calls w ++ [if Js.truthy reqKey
                  then CallGetEnvVar accountId reqKey siteId
                  else CallGetEnvVars accountId siteId].
Proof.
  eexists _, _. split; [apply fetchEnvelopeItems_run|]. cbn [arrays calls].
  repeat split.
  - apply lookup_ge_None. lia.
  - apply lookup_snoc.
  - intros r' old Hold. now apply lookup_snoc_old.
Qed.

Lemma Forall2_In_r {A B} (P : A -> B -> Prop) (l : list A) (l' : list B) (y : B) :
  Forall2 P l l' -> In y l' -> exists x, In x l /\ P x y.
Proof.
  induction 1 as [|a b l l' Hab _ IH]; simpl; [tauto|].
  intros [<-|Hy]; [exists a; auto|].
  destruct (IH Hy) as (x & Hx & Hxy). exists x. auto.
Qed.

Lemma emitted_unique ctx source it kv kv' :
  emitted ctx source it kv -> emitted ctx source it kv' -> kv = kv'.
Proof.
  intros (Hk & found & Hm & He) (Hk' & found' & Hm' & He').
  apply find_first_match in Hm, Hm'. rewrite Hm in Hm'. injection Hm' as <-.
  destruct kv, kv'. simpl in *. congruence.
Qed.

(** X22. For records with distinct keys, asking [formatEnvelopeData] for a
    specific scope only removes entries: every entry of the mapping for a
    scope is, unchanged, an entry of the mapping for scope [any] with the
    same context and source. *)
Theorem formatEnvelopeData_scope_only_removes ctx scope source r items w w2 :
  arrays w !! r = Some items ->
  arrays w2 !! r = Some items ->
  List.NoDup (map key items) ->
  exists scoped w' every w2',
    formatEnvelopeData ctx (ArrayRef r) scope source w = (Ok scoped, w') /\
    formatEnvelopeData ctx (ArrayRef r) Any source w2 = (Ok every, w2') /\
    forall k v, obj_get k scoped = Some v -> obj_get k every = Some v.
Proof.
  intros Hr Hr2 Hnd.
  destruct (formatEnvelopeData_run ctx r scope source items w Hr Hnd)
    as (scoped & Hrun & Hout).
  destruct (formatEnvelopeData_run ctx r Any source items w2 Hr2 Hnd)
    as (every & Hrun2 & Hout2).
  eexists scoped, _, every, _. split; [exact Hrun|]. split; [exact Hrun2|].
  intros k v Hg. apply obj_get_In in Hg.
  destruct (Forall2_In_r _ _ _ _ Hout Hg) as (it & Hit & Hem).
  assert (Hit2 : In it (Js.sort compareKeys
                          (List.filter (matchesScope Any)
                             (List.filter (matchesContext ctx) items)))).
  { apply (Permutation_in _ (sort_perm compareKeys _)) in Hit.
    apply filter_In in Hit as [Hit _].
    apply (Permutation_in _ (Permutation_sym (sort_perm compareKeys _))).
    apply filter_In. split; [exact Hit|reflexivity]. }
  destruct (Forall2_In_l _ _ _ _ Hout2 Hit2) as (kv & Hkv & Hem2).
  rewrite <- (emitted_unique _ _ _ _ _ Hem Hem2) in Hkv.
  apply In_obj_get; [|exact Hkv].
  unfold obj_wf. rewrite (emitted_keys _ _ _ _ Hout2).
  apply (Permutation_NoDup
           (Permutation_map key (Permutation_sym (sort_perm compareKeys _)))).
  now do 2 apply NoDup_map_filter.
Qed.

Lemma formatEnvelopeData_scope_only_removes_witness :
  exists scoped w' every w2',
    formatEnvelopeData Dev (ArrayRef 0) Builds Ui Sample.fruitWorld = (Ok scoped, w') /\
    formatEnvelopeData Dev (ArrayRef 0) Any Ui Sample.fruitWorld = (Ok every, w2') /\
    forall k v, obj_get k scoped = Some v -> obj_get k every = Some v.
Proof.
  apply (formatEnvelopeData_scope_only_removes Dev Builds Ui 0 Sample.fruit
           Sample.fruitWorld Sample.fruitWorld).
  - reflexivity.
  - reflexivity.
  - simpl. repeat constructor; simpl; intuition discriminate.
Defined.
